(** * Session lifecycle engine and day aggregation of code-harvest (pulse)

    A shallow embedding of the Go server [app] (events FocusGained, OpenFile,
    SendHeartbeat, EndSession, the periodic CheckHeartbeat and the helpers
    archiveCurrentFile, updateCurrentFile, createSession, saveSession) and of
    the day aggregation [Sessions.Aggregate], followed by the properties of
    the specification that were checked against them.

    Conventions of the embedding:
    - Go [int64] values are [Z]; every arithmetic operation of the source
      is followed by the two's complement wrap-around [Int64.wrap].
    - [*models.File] values are addresses into a heap of files, so that the
      aliasing between [OpenFiles] and [Files] is the one of the source.
    - The collaborators (injected clock, wall clock, metadata reader,
      storage) are oracles gathered in [Env]; the n-th call of a collaborator
      gets the n-th answer.
    - The handlers live in a state monad whose outcomes distinguish a normal
      return, the process exit of [PrintFatal], a Go panic and a goroutine
      blocked on the mutex.
    - Debug, info and error logging does not touch the engine and is left
      out. *)

From stdpp Require Import gmap strings list fin_maps.
From Stdlib Require Import ZArith Lia.

Local Open Scope Z_scope.

(** ** 64 bit signed integers *)

Module Int64.

Definition min_int : Z := - 2 ^ 63.
Definition max_int : Z := 2 ^ 63 - 1.

Definition in_range (z : Z) : Prop := min_int <= z <= max_int.

(** Two's complement reduction of a mathematical integer. *)
Definition wrap (z : Z) : Z := (z + 2 ^ 63) mod 2 ^ 64 - 2 ^ 63.

Definition add (a b : Z) : Z := wrap (a + b).
Definition sub (a b : Z) : Z := wrap (a - b).

Arguments wrap : simpl never.
Arguments add : simpl never.
Arguments sub : simpl never.

End Int64.

(** ** Data model *)

(** File pointers are indices into the heap. *)
Abbreviation addr := nat (only parsing).

Module File.
(** [models.File] *)
Record t := mk {
  Name : string;
  Repository : string;
  Filetype : string;
  Path : string;
  OpenedAt : Z;
  ClosedAt : Z;
  DurationMs : Z
}.

Definition with_ClosedAt (v : Z) (f : t) : t :=
  mk (Name f) (Repository f) (Filetype f) (Path f) (OpenedAt f) v (DurationMs f).

Definition with_DurationMs (v : Z) (f : t) : t :=
  mk (Name f) (Repository f) (Filetype f) (Path f) (OpenedAt f) (ClosedAt f) v.
End File.

Module Session.
(** [models.Session]; [CurrentFile], [OpenFiles] and [Files] hold
    pointers to files. *)
Record t := mk {
  StartedAt : Z;
  EndedAt : Z;
  DurationMs : Z;
  OS : string;
  Editor : string;
  CurrentFile : option addr;
  OpenFiles : list addr;
  Files : gmap string addr
}.

Definition with_EndedAt (v : Z) (s : t) : t :=
  mk (StartedAt s) v (DurationMs s) (OS s) (Editor s)
     (CurrentFile s) (OpenFiles s) (Files s).

Definition with_DurationMs (v : Z) (s : t) : t :=
  mk (StartedAt s) (EndedAt s) v (OS s) (Editor s)
     (CurrentFile s) (OpenFiles s) (Files s).

Definition with_CurrentFile (v : option addr) (s : t) : t :=
  mk (StartedAt s) (EndedAt s) (DurationMs s) (OS s) (Editor s)
     v (OpenFiles s) (Files s).

Definition with_OpenFiles (v : list addr) (s : t) : t :=
  mk (StartedAt s) (EndedAt s) (DurationMs s) (OS s) (Editor s)
     (CurrentFile s) v (Files s).

Definition with_Files (v : gmap string addr) (s : t) : t :=
  mk (StartedAt s) (EndedAt s) (DurationMs s) (OS s) (Editor s)
     (CurrentFile s) (OpenFiles s) v.
End Session.

(** [shared.Event] *)
Record Event := mkEvent {
  Id : string;
  EventOS : string;
  EventEditor : string;
  EventPath : string
}.

(** What [MetadataReader.Read] answers for a path it can resolve. *)
Record FileMetadata := mkFileMetadata {
  Filename : string;
  RepositoryName : string;
  MetaFiletype : string
}.

(** The mutable fields of the [app] struct. *)
Record app := mkApp {
  mutex : bool;
  activeClientId : string;
  lastHeartbeat : Z;
  session : option Session.t
}.

(** One call of [storage.Save]: the session handed over, the files its
    pointers referred to at that moment, and whether the call failed. *)
Record SaveCall := mkSaveCall {
  saved_session : Session.t;
  saved_heap : list File.t;
  saved_failed : bool
}.

(** The engine together with the file heap and the history of its
    collaborators.  [unguarded] is ghost state: it is raised by any access
    to a field of [app] made while the mutex is not held. *)
Record World := mkWorld {
  engine : app;
  heap : list File.t;
  clock_reads : nat;
  wall_reads : nat;
  saves : list SaveCall;
  unguarded : bool
}.

(** The collaborators.  [clock_at n] is the n-th reading of the injected
    clock, [wall_at n] the n-th reading of the system wall clock in
    milliseconds, [metadata_of p] the metadata of path [p] when the reader
    can resolve it, [save_fails_at n] tells whether the n-th [Save] returns
    an error. *)
Record Env := mkEnv {
  clock_at : nat -> Z;
  wall_at : nat -> Z;
  metadata_of : string -> option FileMetadata;
  save_fails_at : nat -> bool
}.

(** [HeartbeatTTL.Milliseconds()] for [HeartbeatTTL = time.Minute * 10]. *)
Definition HeartbeatTTL_ms : Z := 10 * 60 * 1000.

(** ** The monad of the handlers *)

Inductive outcome (A : Type) : Type :=
| Ret (a : A)     (* normal return *)
| Fatal           (* PrintFatal: the process exits, no deferred call runs *)
| Panic           (* nil or dangling pointer dereference *)
| Blocked.        (* Lock on a mutex that is held *)
Arguments Ret {A} a.
Arguments Fatal {A}.
Arguments Panic {A}.
Arguments Blocked {A}.

Definition M (A : Type) : Type := World -> World * outcome A.

Definition ret {A} (a : A) : M A := fun w => (w, Ret a).

Definition bind {A B} (c : M A) (k : A -> M B) : M B :=
  fun w =>
    match c w with
    | (w1, Ret a) => k a w1
    | (w1, Fatal) => (w1, Fatal)
    | (w1, Panic) => (w1, Panic)
    | (w1, Blocked) => (w1, Blocked)
    end.

#[global] Instance M_ret : MRet M := @ret.
#[global] Instance M_bind : MBind M := fun A B k c => bind c k.

(** [defer d; body]: the deferred call runs when the body returns and when
    it panics, not when the process exits or the goroutine never resumes. *)
Definition defer {A} (d : M unit) (body : M A) : M A :=
  fun w =>
    match body w with
    | (w1, Ret a) => (fst (d w1), Ret a)
    | (w1, Panic) => (fst (d w1), Panic)
    | (w1, Fatal) => (w1, Fatal)
    | (w1, Blocked) => (w1, Blocked)
    end.

Definition panic {A} : M A := fun w => (w, Panic).

(** [for _, x := range l { body x }] *)
Fixpoint for_range {A} (l : list A) (body : A -> M unit) : M unit :=
  match l with
  | [] => ret tt
  | x :: l' => body x;; for_range l' body
  end.

(** *** Primitive accesses *)

Definition set_engine (a : app) (w : World) : World :=
  mkWorld a (heap w) (clock_reads w) (wall_reads w) (saves w) (unguarded w).

Definition set_heap (h : list File.t) (w : World) : World :=
  mkWorld (engine w) h (clock_reads w) (wall_reads w) (saves w) (unguarded w).

(** Ghost bookkeeping of an access to a field of [app]. *)
Definition note_access (w : World) : World :=
  mkWorld (engine w) (heap w) (clock_reads w) (wall_reads w) (saves w)
          (unguarded w || negb (mutex (engine w))).

Definition mutex_Lock : M unit := fun w =>
  if mutex (engine w) then (w, Blocked)
  else (set_engine (mkApp true (activeClientId (engine w))
                          (lastHeartbeat (engine w)) (session (engine w))) w,
        Ret tt).

Definition mutex_Unlock : M unit := fun w =>
  (set_engine (mkApp false (activeClientId (engine w))
                     (lastHeartbeat (engine w)) (session (engine w))) w,
   Ret tt).

Definition load {A} (field : app -> A) : M A := fun w =>
  (note_access w, Ret (field (engine w))).

Definition store_activeClientId (v : string) : M unit := fun w =>
  let w := note_access w in
  (set_engine (mkApp (mutex (engine w)) v (lastHeartbeat (engine w))
                     (session (engine w))) w, Ret tt).

Definition store_lastHeartbeat (v : Z) : M unit := fun w =>
  let w := note_access w in
  (set_engine (mkApp (mutex (engine w)) (activeClientId (engine w)) v
                     (session (engine w))) w, Ret tt).

Definition store_session (v : option Session.t) : M unit := fun w =>
  let w := note_access w in
  (set_engine (mkApp (mutex (engine w)) (activeClientId (engine w))
                     (lastHeartbeat (engine w)) v) w, Ret tt).

(** [app.session.X]: reading through the session pointer. *)
Definition deref_session : M Session.t :=
  s ← load session;
  match s with
  | Some s => ret s
  | None => panic
  end.

(** [*p] for a file pointer. *)
Definition deref_file (p : addr) : M File.t := fun w =>
  match heap w !! p with
  | Some f => (w, Ret f)
  | None => (w, Panic)
  end.

(** [*p = f] *)
Definition store_file (p : addr) (f : File.t) : M unit := fun w =>
  match heap w !! p with
  | Some _ => (set_heap (<[p := f]> (heap w)) w, Ret tt)
  | None => (w, Panic)
  end.

(** [&file] for a fresh composite literal. *)
Definition new_file (f : File.t) : M addr := fun w =>
  (set_heap (heap w ++ [f]) w, Ret (length (heap w))).

(** ** The engine *)

(** The pair returned by a remote procedure: the string written to
    [*reply] (if any) and the [error] ([None] is [nil]). *)
Definition rpc_result : Type := option string * option string.

Section Engine.

Variable env : Env.

(** [app.clock.GetTime()] *)
Definition clock_GetTime : M Z := fun w =>
  (mkWorld (engine w) (heap w) (S (clock_reads w)) (wall_reads w)
           (saves w) (unguarded w),
   Ret (clock_at env (clock_reads w))).

(** [time.Now().UTC().UnixMilli()] *)
Definition time_Now_UnixMilli : M Z := fun w =>
  (mkWorld (engine w) (heap w) (clock_reads w) (S (wall_reads w))
           (saves w) (unguarded w),
   Ret (wall_at env (wall_reads w))).

(** [app.storage.Save(s)]; returns whether the error is not nil. *)
Definition storage_Save (s : Session.t) : M bool := fun w =>
  let failed := save_fails_at env (length (saves w)) in
  (mkWorld (engine w) (heap w) (clock_reads w) (wall_reads w)
           (saves w ++ [mkSaveCall s (heap w) failed]) (unguarded w),
   Ret failed).

(** Modelled from the spec: the logger is not in the sources.
    [app.log.PrintFatal] signals the one fatal condition, which halts the
    process rather than returning an error. *)
Definition log_PrintFatal : M unit := fun w => (w, Fatal).

Definition archiveCurrentFile (closedAt : Z) : M unit :=
  s ← deref_session;
  match Session.CurrentFile s with
  | Some p =>
      f ← deref_file p;
      store_file p (File.with_ClosedAt closedAt f);;
      s ← deref_session;
      store_session
        (Some (Session.with_OpenFiles (Session.OpenFiles s ++ [p]) s))
  | None => ret tt
  end.

Definition updateCurrentFile (path : string) : M unit :=
  openedAt ← clock_GetTime;
  match metadata_of env path with
  | None => ret tt
  | Some fileMetadata =>
      let file := File.mk (Filename fileMetadata)
                          (RepositoryName fileMetadata)
                          (MetaFiletype fileMetadata)
                          path openedAt 0 0 in
      archiveCurrentFile openedAt;;
      p ← new_file file;
      s ← deref_session;
      store_session (Some (Session.with_CurrentFile (Some p) s))
  end.

Definition createSession (os editor : string) : M unit :=
  startedAt ← time_Now_UnixMilli;
  store_session
    (Some (Session.mk startedAt 0 0 os editor None [] ∅)).

(** Body of the loop of [saveSession] for one entry of [OpenFiles]. *)
Definition mergeFile (p : addr) : M unit :=
  f ← deref_file p;
  s ← deref_session;
  match Session.Files s !! File.Path f with
  | None =>
      store_file p
        (File.with_DurationMs
           (Int64.sub (File.ClosedAt f) (File.OpenedAt f)) f);;
      store_session
        (Some (Session.with_Files (<[File.Path f := p]> (Session.Files s)) s))
  | Some q =>
      currentFile ← deref_file q;
      store_file q
        (File.with_DurationMs
           (Int64.add (File.DurationMs currentFile)
                      (Int64.sub (File.ClosedAt f) (File.OpenedAt f)))
           currentFile)
  end.

Definition saveSession : M unit :=
  defer (store_activeClientId EmptyString;; store_session None)
    (s ← load session;
     match s with
     | None => ret tt
     | Some _ =>
         endedAt ← clock_GetTime;
         archiveCurrentFile endedAt;;
         s ← deref_session;
         store_session (Some (Session.with_EndedAt endedAt s));;
         s ← deref_session;
         store_session
           (Some (Session.with_DurationMs
                    (Int64.sub (Session.EndedAt s) (Session.StartedAt s)) s));;
         s ← deref_session;
         (if (0 <? length (Session.OpenFiles s))%nat
          then for_range (Session.OpenFiles s) mergeFile
          else ret tt);;
         s ← deref_session;
         if (size (Session.Files s) <? 1)%nat then ret tt
         else
           _ ← storage_Save s;
           ret tt
     end).

Definition FocusGained (event : Event) : M rpc_result :=
  mutex_Lock;;
  defer mutex_Unlock
    (now ← clock_GetTime;
     store_lastHeartbeat now;;
     a ← load activeClientId;
     if String.eqb a (Id event) then ret (None, None)
     else
       s ← load session;
       (if s is Some _ then saveSession else ret tt);;
       store_activeClientId (Id event);;
       createSession (EventOS event) (EventEditor event);;
       updateCurrentFile (EventPath event);;
       ret (Some "Successfully updated the client being focused."%string, None)).

Definition OpenFile (event : Event) : M rpc_result :=
  mutex_Lock;;
  defer mutex_Unlock
    (now ← clock_GetTime;
     store_lastHeartbeat now;;
     s ← load session;
     (if s is None
      then store_activeClientId (Id event);;
           createSession (EventOS event) (EventEditor event)
      else ret tt);;
     updateCurrentFile (EventPath event);;
     ret (Some "Successfully updated the current file."%string, None)).

Definition SendHeartbeat (event : Event) : M rpc_result :=
  mutex_Lock;;
  defer mutex_Unlock
    (s ← load session;
     (if s is None
      then store_activeClientId (Id event);;
           createSession (EventOS event) (EventEditor event);;
           updateCurrentFile (EventPath event)
      else ret tt);;
     now ← clock_GetTime;
     store_lastHeartbeat now;;
     ret (Some "Successfully sent heartbeat"%string, None)).

Definition EndSession (event : Event) : M rpc_result :=
  mutex_Lock;;
  defer mutex_Unlock
    (a ← load activeClientId;
     (if (1 <? String.length a)%nat && negb (String.eqb a (Id event))
      then log_PrintFatal
      else ret tt);;
     a ← load activeClientId;
     s ← load session;
     if String.eqb a EmptyString && (if s is None then true else false)
     then ret (None, None)
     else
       saveSession;;
       ret (Some "The session was ended successfully."%string, None)).

(** The guard of [CheckHeartbeat], evaluated before the mutex is taken;
    [&&] does not evaluate its right operand when the session is nil. *)
Definition heartbeat_expired : M bool :=
  s ← load session;
  if s is Some _ then
    lastHeartbeat ← load lastHeartbeat;
    now ← clock_GetTime;
    ret (Int64.add lastHeartbeat HeartbeatTTL_ms <? now)
  else ret false.

(** The branch of [CheckHeartbeat] taken when the guard holds. *)
Definition close_expired : M unit :=
  mutex_Lock;;
  defer mutex_Unlock saveSession.

Definition CheckHeartbeat : M unit :=
  expired ← heartbeat_expired;
  if (expired : bool) then close_expired else ret tt.

End Engine.

(** ** Vocabulary of the statements *)

(** The sum of a list of mathematical integers. *)
Definition Zsum (l : list Z) : Z := foldr Z.add 0 l.

(** What the merge of [saveSession] reads of a file. *)
Definition view (f : File.t) : string * Z * Z :=
  (File.Path f, File.OpenedAt f, File.ClosedAt f).

(** [closedAt - openedAt] of the file at [p] when its path is [path]. *)
Definition interval_of (h : list File.t) (path : string) (p : addr) : option Z :=
  match h !! p with
  | Some f =>
      if decide (File.Path f = path)
      then Some (File.ClosedAt f - File.OpenedAt f)
      else None
  | None => None
  end.

(** The intervals of [path] among the archived files [l], in order. *)
Definition intervals (h : list File.t) (l : list addr) (path : string) : list Z :=
  omap (interval_of h path) l.

(** [Files] holds, for every path, the merged duration of the intervals of
    the files [processed] so far. *)
Definition merged (h : list File.t) (F : gmap string addr)
    (processed : list addr) : Prop :=
  ∀ path,
    match F !! path with
    | Some q =>
        ∃ f, h !! q = Some f ∧ File.Path f = path ∧
             File.DurationMs f = Int64.wrap (Zsum (intervals h processed path)) ∧
             intervals h processed path ≠ []
    | None => intervals h processed path = []
    end.

(** Everything but the session object, the heap and the ghost state. *)
Definition same_frame (w w' : World) : Prop :=
  mutex (engine w') = mutex (engine w) ∧
  activeClientId (engine w') = activeClientId (engine w) ∧
  lastHeartbeat (engine w') = lastHeartbeat (engine w) ∧
  clock_reads w' = clock_reads w ∧
  wall_reads w' = wall_reads w ∧
  saves w' = saves w.

(** The heap once the current file (if any) got its [ClosedAt]. *)
Definition close_current (closedAt : Z) (cur : option addr)
    (h : list File.t) : list File.t :=
  match cur with
  | Some p =>
      match h !! p with
      | Some f => <[p := File.with_ClosedAt closedAt f]> h
      | None => h
      end
  | None => h
  end.

Arguments close_current : simpl never.

(** The pointers of a session in flight are all live, and its [Files]
    map is still the empty one made by [createSession]. *)
Definition session_wf (h : list File.t) (s : Session.t) : Prop :=
  (∀ p, Session.CurrentFile s = Some p → is_Some (h !! p)) ∧
  Forall (λ p, is_Some (h !! p)) (Session.OpenFiles s) ∧
  Session.Files s = ∅.

(** The files a closing session has archived: [OpenFiles] followed by the
    current file. *)
Definition archived (s : Session.t) : list addr :=
  Session.OpenFiles s ++ option_list (Session.CurrentFile s).

Arguments archived : simpl never.

(** The session object at the end of [saveSession], for the merged map
    [F]. *)
Definition closed_session (s : Session.t) (endedAt : Z)
    (F : gmap string addr) : Session.t :=
  Session.mk (Session.StartedAt s) endedAt
             (Int64.sub endedAt (Session.StartedAt s))
             (Session.OS s) (Session.Editor s)
             (Session.CurrentFile s) (archived s) F.

(** What holds of a call of [storage.Save]: the current file was archived
    with the end of the session as its [ClosedAt], and [Files] is the merge
    of [OpenFiles]. *)
Definition save_call_merged (c : SaveCall) : Prop :=
  let s := saved_session c in
  let h := saved_heap c in
  (∀ p, Session.CurrentFile s = Some p →
        p ∈ Session.OpenFiles s ∧
        ∃ f, h !! p = Some f ∧ File.ClosedAt f = Session.EndedAt s) ∧
  merged h (Session.Files s) (Session.OpenFiles s).

Definition wf_world (w : World) : Prop :=
  match session (engine w) with
  | Some s => session_wf (heap w) s
  | None => True
  end.

(** The invariant of the engine between and inside its operations. *)
Definition consistent (w : World) : Prop :=
  wf_world w ∧ Forall save_call_merged (saves w).

(** *** Shapes of computations *)

(** The computation neither exits the process nor blocks. *)
Definition no_exit {A} (c : M A) : Prop :=
  ∀ w, snd (c w) ≠ Fatal ∧ snd (c w) ≠ Blocked.

(** Run with the mutex held, the computation keeps it held and makes no
    unguarded access. *)
Definition guarded {A} (c : M A) : Prop :=
  ∀ w, mutex (engine w) = true →
       mutex (engine (fst (c w))) = true ∧
       unguarded (fst (c w)) = unguarded w.

(** The sessions the computation hands to [storage.Save] all have a
    non-empty [Files] map. *)
Definition saves_only_nonempty {A} (c : M A) : Prop :=
  ∀ w, ∃ l, saves (fst (c w)) = saves w ++ l ∧
            Forall (λ c, Session.Files (saved_session c) ≠ ∅) l.

(** The remote procedure returns a nil error whenever it returns. *)
Definition returns_nil (c : M rpc_result) : Prop :=
  ∀ w r, snd (c w) = Ret r → snd r = None.

(** *** Runs of the engine *)

(** What the transport and the heartbeat ticker ask of the engine. *)
Inductive request : Type :=
| ReqFocusGained (event : Event)
| ReqOpenFile (event : Event)
| ReqSendHeartbeat (event : Event)
| ReqEndSession (event : Event)
| ReqCheckHeartbeat.

Definition serve (env : Env) (r : request) : M unit :=
  match r with
  | ReqFocusGained event => FocusGained env event;; ret tt
  | ReqOpenFile event => OpenFile env event;; ret tt
  | ReqSendHeartbeat event => SendHeartbeat env event;; ret tt
  | ReqEndSession event => EndSession env event;; ret tt
  | ReqCheckHeartbeat => CheckHeartbeat env
  end.

(** The engine made by [New]: every field has its zero value. *)
Definition initial : World :=
  mkWorld (mkApp false EmptyString 0 None) [] 0 0 [] false.

(** Worlds reached by serving requests one after the other. *)
Inductive reachable (env : Env) : World -> Prop :=
| reachable_initial : reachable env initial
| reachable_serve w r w' :
    reachable env w ->
    serve env r w = (w', Ret tt) ->
    reachable env w'.

(** [run env rs w] serves the requests [rs] in order from [w]; the run
    ends with the first request that does not return, in the world it was
    made in. *)
Fixpoint run (env : Env) (rs : list request) (w : World) : World :=
  match rs with
  | [] => w
  | r :: rs' =>
      match serve env r w with
      | (w', Ret _) => run env rs' w'
      | _ => w
      end
  end.

(** ** Day aggregation *)

Module domain.

(** Modelled from the spec: the declaration of [domain.Session] is not in
    the sources.  [Aggregate] reads [StartedAt] and [DurationMs]; [Files]
    is the merged mapping from path to file of the data model. *)
Module Session.
Record t := mk {
  StartedAt : Z;
  EndedAt : Z;
  DurationMs : Z;
  OS : string;
  Editor : string;
  Files : gmap string File.t
}.
End Session.

(** Modelled from the spec: the periods of an aggregated session;
    [Aggregate] uses [Day]. *)
Inductive TimePeriod : Type := Day | Week | Month | Year.

(** Modelled from the spec: the declaration of [domain.AggregatedSession]
    is not in the sources; the fields are the ones [Aggregate] fills in,
    [Repositories] being the mapping from repository to total time. *)
Module AggregatedSession.
Record t := mk {
  Period : TimePeriod;
  Date : Z;
  DateString : string;
  TotalTimeMs : Z;
  Repositories : gmap string Z
}.
End AggregatedSession.

End domain.

(** Milliseconds in a day. *)
Definition day_ms : Z := 24 * 60 * 60 * 1000.

(** Modelled from the spec: [truncate.Day] is not in the sources.  It
    truncates a time in Unix milliseconds to the midnight (UTC) of its
    calendar day. *)
Definition truncate_Day (ms : Z) : Z := ms - ms mod day_ms.

(** Modelled from the spec: the loop body of [sessionRepositories], which
    adds the duration of a file to the running total of its repository. *)
Definition add_file (repositories : gmap string Z) (f : File.t)
    : gmap string Z :=
  <[File.Repository f :=
      Int64.add (default 0 (repositories !! File.Repository f))
                (File.DurationMs f)]> repositories.

(** The files of a list of sessions. *)
Definition files_of (sessions : list domain.Session.t) : list File.t :=
  s ← sessions; (map_to_list (domain.Session.Files s)).*2.

(** Modelled from the spec: [sessionRepositories] is not in the sources.
    It sums, per file, its [DurationMs] into the running total of its
    repository, across all sessions and files of the bucket. *)
Definition sessionRepositories (sessions : list domain.Session.t)
    : gmap string Z :=
  foldl add_file ∅ (files_of sessions).

(** [groupByDay]: [buckets[d] = append(buckets[d], s)] for every session,
    in order. *)
Definition groupByDay (session : list domain.Session.t)
    : gmap Z (list domain.Session.t) :=
  foldl (λ buckets s,
           let d := truncate_Day (domain.Session.StartedAt s) in
           <[d := default [] (buckets !! d) ++ [s]]> buckets)
        ∅ session.

Section Aggregate.

(** [time.Unix(0, date*int64(time.Millisecond)).Format(yymmdd)]: the
    formatting of the standard library, a function of [date]. *)
Variable format_date : Z -> string.

(** The body of the loop of [Aggregate] for one entry of the map. *)
Definition aggregate_bucket (date : Z)
    (tempSessions : list domain.Session.t) : domain.AggregatedSession.t :=
  domain.AggregatedSession.mk
    domain.Day date (format_date date)
    (foldl (λ totalTime tempSession,
              Int64.add totalTime (domain.Session.DurationMs tempSession))
           0 tempSessions)
    (sessionRepositories tempSessions).

(** [Aggregate] for the entries of [sessionsPerDay] taken in the order
    [entries]. *)
Definition Aggregate_in (entries : list (Z * list domain.Session.t))
    : list domain.AggregatedSession.t :=
  (λ e, aggregate_bucket e.1 e.2) <$> entries.

(** One run of [Aggregate]. *)
Definition Aggregate (sessions : list domain.Session.t)
    : list domain.AggregatedSession.t :=
  Aggregate_in (map_to_list (groupByDay sessions)).

(** Go ranges over a map in an unspecified order: the results of
    [Aggregate] are those of every ordering of the entries. *)
Definition Aggregate_result (sessions : list domain.Session.t)
    (out : list domain.AggregatedSession.t) : Prop :=
  ∃ entries, entries ≡ₚ map_to_list (groupByDay sessions) ∧
             out = Aggregate_in entries.

End Aggregate.

(** The sessions of [sessions] that started on the day [date]. *)
Definition started_on (date : Z) (sessions : list domain.Session.t)
    : list domain.Session.t :=
  filter (λ s, truncate_Day (domain.Session.StartedAt s) = date) sessions.

(** An output of [Aggregate] as a mapping keyed by bucket. *)
Definition by_bucket (out : list domain.AggregatedSession.t)
    : gmap Z domain.AggregatedSession.t :=
  list_to_map ((λ a, (domain.AggregatedSession.Date a, a)) <$> out).

(** ** Examples *)

(** *** Example collaborators and events *)

(** A reader that resolves every path, in repository [repo]. *)
Definition example_reader (path : string) : option FileMetadata :=
  Some (mkFileMetadata path "repo" "go").

(** Collaborators whose injected clock gives the readings [clock], then
    [0]; the wall clock reads [wall] and [Save] fails when [save_fails]. *)
Definition example_env (clock : list Z) (wall : Z) (save_fails : bool) : Env :=
  mkEnv (λ n, nth n clock 0) (λ _, wall) example_reader (λ _, save_fails).

Definition example_event (client path : string) : Event :=
  mkEvent client "linux" "nvim" path.

(** *** Example runs *)

(** [/repo/a.go] open over [0, 1000) and [2000, 2500), [/repo/b.go] in
    between, then the end of the session. *)
Definition reopen_env : Env :=
  example_env [0; 0; 1000; 1000; 2000; 2000; 2500] 0 false.

Definition reopen_world : World :=
  run reopen_env
    [ReqOpenFile (example_event "A1" "/repo/a.go");
     ReqOpenFile (example_event "A1" "/repo/b.go");
     ReqOpenFile (example_event "A1" "/repo/a.go");
     ReqEndSession (example_event "A1" EmptyString)]
    initial.

(** What [reopen_world] handed to [storage.Save]. *)
Definition reopen_call : SaveCall :=
  nth 0 (saves reopen_world)
      (mkSaveCall (Session.mk 0 0 0 EmptyString EmptyString None [] ∅) [] false).

(** Client [A] has the focus since time 0; the clock then reads 50. *)
Definition focus_env : Env := example_env [0; 0; 50] 0 false.

Definition focused_world : World :=
  run focus_env [ReqFocusGained (example_event "A" "/repo/a.go")] initial.

(** A session whose last heartbeat is at 0, checked at 600000. *)
Definition boundary_env : Env := example_env [0; 0; 600000] 0 false.

Definition boundary_world : World :=
  run boundary_env [ReqOpenFile (example_event "A1" "/repo/a.go")] initial.

(** The session in flight after an OpenFile on a fresh engine, at wall
    clock 0: its current file is the first file of the heap. *)
Definition one_file_session : Session.t :=
  Session.mk 0 0 0 "linux" "nvim" (Some 0%nat) [] ∅.

(** A session with one file and a storage that fails. *)
Definition failing_store_env : Env := example_env [0; 0; 1000] 0 true.

Definition unsaved_world : World :=
  run failing_store_env [ReqOpenFile (example_event "A1" "/repo/a.go")] initial.

(** The injected clock reads 1000 while the wall clock reads 5000. *)
Definition skewed_env : Env := example_env [1000; 1000; 1000] 5000 false.

(** The session of a client whose identifier has one character. *)
Definition one_character_env : Env := example_env [0; 0; 1000] 0 false.

Definition one_character_world : World :=
  run one_character_env [ReqOpenFile (example_event "A" "/repo/a.go")] initial.

(** Three raw sessions: two started on day 0, one on day 1. *)
Definition example_sessions : list domain.Session.t :=
  [domain.Session.mk 1000 1010 10 "linux" "nvim" ∅;
   domain.Session.mk (day_ms + 5) (day_ms + 25) 20 "linux" "nvim" ∅;
   domain.Session.mk 2000 2030 30 "linux" "nvim" ∅].

Definition example_sessions_permuted : list domain.Session.t :=
  [domain.Session.mk (day_ms + 5) (day_ms + 25) 20 "linux" "nvim" ∅;
   domain.Session.mk 2000 2030 30 "linux" "nvim" ∅;
   domain.Session.mk 1000 1010 10 "linux" "nvim" ∅].

Definition example_format (date : Z) : string :=
  if date =? 0 then "1970-01-01" else "1970-01-02".

(** *** A schedule of the heartbeat check

    [CheckHeartbeat] evaluates its guard before it takes the mutex, so the
    mutex lets another handler run between the guard and [Lock].
    [CheckHeartbeat_interleaved env other] is that schedule. *)
Definition CheckHeartbeat_interleaved (env : Env) (other : M rpc_result)
    : M unit :=
  expired ← heartbeat_expired env;
  other;;
  if (expired : bool) then close_expired env else ret tt.

(** A session opened at time 0 and left alone for more than ten minutes;
    the later readings of the clock are one millisecond apart. *)
Definition stale_env : Env :=
  example_env [0; 0; 600003; 600004; 600005; 600006] 0 false.

Definition stale_world : World :=
  run stale_env [ReqOpenFile (example_event "A1" "/repo/a.go")] initial.

(** ** Further vocabulary of the engine *)

(** The open and close times of the files [l], in order. *)
Definition spans (h : list File.t) (l : list addr) : list (Z * Z) :=
  omap (λ p, (λ f, (File.OpenedAt f, File.ClosedAt f)) <$> h !! p) l.

(** Each span closes when the next one opens, and the last one at
    [stop]. *)
Fixpoint tiled (sp : list (Z * Z)) (stop : Z) : Prop :=
  match sp with
  | [] => True
  | (_, c) :: rest =>
      c = match rest with
          | [] => stop
          | (o, _) :: _ => o
          end ∧
      tiled rest stop
  end.

(** A span whose ends are two readings of the injected clock, the second
    one taken later. *)
Definition clocked (env : Env) (oc : Z * Z) : Prop :=
  ∃ i j, (i < j)%nat ∧ oc = (clock_at env i, clock_at env j).

(** A session in flight after [n] readings of the clock: its file pointers
    are distinct; it has archived nothing before its first file; its current
    file is still open, was opened at one of the [n] readings, and the
    archived files tile the time up to its opening. *)
Definition session_tidy (env : Env) (n : nat) (h : list File.t)
    (s : Session.t) : Prop :=
  NoDup (archived s) ∧
  Forall (clocked env) (spans h (Session.OpenFiles s)) ∧
  match Session.CurrentFile s with
  | None => Session.OpenFiles s = []
  | Some c =>
      ∃ f m, h !! c = Some f ∧ File.ClosedAt f = 0 ∧
             (m < n)%nat ∧ File.OpenedAt f = clock_at env m ∧
             tiled (spans h (Session.OpenFiles s)) (File.OpenedAt f)
  end.

(** A call of [storage.Save] whose session has its duration set, a current
    file archived last, and files that tile the time up to its end. *)
Definition save_call_tiled (env : Env) (c : SaveCall) : Prop :=
  let s := saved_session c in
  Session.DurationMs s = Int64.sub (Session.EndedAt s) (Session.StartedAt s) ∧
  NoDup (Session.OpenFiles s) ∧
  (∃ p, Session.CurrentFile s = Some p ∧ last (Session.OpenFiles s) = Some p) ∧
  length (spans (saved_heap c) (Session.OpenFiles s))
    = length (Session.OpenFiles s) ∧
  Forall (clocked env) (spans (saved_heap c) (Session.OpenFiles s)) ∧
  tiled (spans (saved_heap c) (Session.OpenFiles s)) (Session.EndedAt s).

(** A second invariant of the engine. *)
Definition orderly (env : Env) (w : World) : Prop :=
  (session (engine w) = None → activeClientId (engine w) = EmptyString) ∧
  (∀ s, session (engine w) = Some s →
        session_tidy env (clock_reads w) (heap w) s) ∧
  Forall (save_call_tiled env) (saves w).

(** The file made by [updateCurrentFile]. *)
Definition opened_file (md : FileMetadata) (path : string) (openedAt : Z)
    : File.t :=
  File.mk (Filename md) (RepositoryName md) (MetaFiletype md)
          path openedAt 0 0.

(** A reader that resolves the paths under [/repo/] only. *)
Definition repo_reader (path : string) : option FileMetadata :=
  if String.prefix "/repo/" path
  then Some (mkFileMetadata path "repo" "go")
  else None.

Definition repo_env (clock : list Z) (wall : Z) : Env :=
  mkEnv (λ n, nth n clock 0) (λ _, wall) repo_reader (λ _, false).

(** Both invariants. *)
Definition sound (env : Env) (w : World) : Prop :=
  consistent w ∧ orderly env w.

(** *** Further example runs *)

(** [/repo/a.go] opened at 0, then [/repo/b.go] at 1000, still in flight. *)
Definition two_files_world : World :=
  run reopen_env
    [ReqOpenFile (example_event "A1" "/repo/a.go");
     ReqOpenFile (example_event "A1" "/repo/b.go")]
    initial.

(** The same run after its first event. *)
Definition one_file_world : World :=
  run reopen_env [ReqOpenFile (example_event "A1" "/repo/a.go")] initial.

Definition two_files_session : Session.t :=
  Session.mk 0 0 0 "linux" "nvim" (Some 1%nat) [0%nat] ∅.

(** An engine that has served a whole session and is idle again. *)
Definition idle_again_env : Env := example_env [0; 0; 1000] 0 false.

Definition idle_again_world : World :=
  run idle_again_env
    [ReqOpenFile (example_event "A1" "/repo/a.go");
     ReqEndSession (example_event "A1" EmptyString)]
    initial.

(** A clock that advances by one second at every reading, up to the
    largest int64. *)
Definition ticking_env : Env :=
  mkEnv (λ n, Z.min (1000 * Z.of_nat n) Int64.max_int) (λ _, 0)
        example_reader (λ _, false).

Definition ticking_world : World :=
  run ticking_env
    [ReqOpenFile (example_event "A1" "/repo/a.go");
     ReqOpenFile (example_event "A1" "/repo/b.go");
     ReqOpenFile (example_event "A1" "/repo/a.go");
     ReqEndSession (example_event "A1" EmptyString)]
    initial.

Definition ticking_call : SaveCall :=
  nth 0 (saves ticking_world)
      (mkSaveCall (Session.mk 0 0 0 EmptyString EmptyString None [] ∅) [] false).

(** A session of client [A1] on [/repo/a.go], with a reader that knows
    [/repo/] only. *)
Definition repo_world : World :=
  run (repo_env [0; 0; 1000; 1000; 2000; 2000] 0)
      [ReqOpenFile (example_event "A1" "/repo/a.go")] initial.

(** ** Construction of the app and of the server *)

Section Options.

(** The types of the collaborators.  A value of an interface or pointer
    type may be nil: [None]. *)
Variables Clock MetadataReader Storage Logger : Type.

(** [clock.New()] and [FileMetadataReader{}] *)
Variable clock_New : Clock.
Variable FileMetadataReader : MetadataReader.

(** The collaborator fields of the [app] struct. *)
Record app_fields := mkFields {
  field_clock : option Clock;
  field_reader : option MetadataReader;
  field_storage : option Storage;
  field_log : option Logger
}.

(** The Go type [option], a function from a pointer to the app to an
    error: here, the app after the call and the error. *)
Definition app_option : Type := app_fields -> app_fields * option string.

Definition WithClock (clock : option Clock) : app_option := λ a,
  match clock with
  | None => (a, Some "clock is nil"%string)
  | Some _ =>
      (mkFields clock (field_reader a) (field_storage a) (field_log a), None)
  end.

Definition WithMetadataReader (reader : option MetadataReader) : app_option :=
  λ a,
  match reader with
  | None => (a, Some "reader is nil"%string)
  | Some _ =>
      (mkFields (field_clock a) reader (field_storage a) (field_log a), None)
  end.

Definition WithStorage (storage : option Storage) : app_option := λ a,
  match storage with
  | None => (a, Some "storage is nil"%string)
  | Some _ =>
      (mkFields (field_clock a) (field_reader a) storage (field_log a), None)
  end.

Definition WithLog (log : option Logger) : app_option := λ a,
  match log with
  | None => (a, Some "log is nil"%string)
  | Some _ =>
      (mkFields (field_clock a) (field_reader a) (field_storage a) log, None)
  end.

(** The loop of [New]: the first option that fails ends it with
    [&app{}] and the error. *)
Fixpoint apply_options (a : app_fields) (opts : list app_option)
    : app_fields * option string :=
  match opts with
  | [] => (a, None)
  | opt :: rest =>
      match opt a with
      | (_, Some err) => (mkFields None None None None, Some err)
      | (a', None) => apply_options a' rest
      end
  end.

Definition New (opts : list app_option) : app_fields * option string :=
  apply_options (mkFields (Some clock_New) (Some FileMetadataReader) None None)
                opts.

(** The options a caller can build: the type [option] is not exported,
    so every option comes from one of the four constructors. *)
Inductive setting : Type :=
| SetClock (clock : option Clock)
| SetMetadataReader (reader : option MetadataReader)
| SetStorage (storage : option Storage)
| SetLog (log : option Logger).

Definition option_of (x : setting) : app_option :=
  match x with
  | SetClock clock => WithClock clock
  | SetMetadataReader reader => WithMetadataReader reader
  | SetStorage storage => WithStorage storage
  | SetLog log => WithLog log
  end.

(** The error of an option built on a nil collaborator. *)
Definition nil_error (x : setting) : option string :=
  match x with
  | SetClock None => Some "clock is nil"%string
  | SetMetadataReader None => Some "reader is nil"%string
  | SetStorage None => Some "storage is nil"%string
  | SetLog None => Some "log is nil"%string
  | _ => None
  end.

Definition given_clock (x : setting) : option Clock :=
  match x with SetClock clock => clock | _ => None end.
Definition given_reader (x : setting) : option MetadataReader :=
  match x with SetMetadataReader reader => reader | _ => None end.
Definition given_storage (x : setting) : option Storage :=
  match x with SetStorage storage => storage | _ => None end.
Definition given_log (x : setting) : option Logger :=
  match x with SetLog log => log | _ => None end.

End Options.

Arguments mkFields {Clock MetadataReader Storage Logger}.
Arguments field_clock {Clock MetadataReader Storage Logger}.
Arguments field_reader {Clock MetadataReader Storage Logger}.
Arguments field_storage {Clock MetadataReader Storage Logger}.
Arguments field_log {Clock MetadataReader Storage Logger}.
Arguments SetClock {Clock MetadataReader Storage Logger}.
Arguments SetMetadataReader {Clock MetadataReader Storage Logger}.
Arguments SetStorage {Clock MetadataReader Storage Logger}.
Arguments SetLog {Clock MetadataReader Storage Logger}.
Arguments option_of {Clock MetadataReader Storage Logger}.
Arguments nil_error {Clock MetadataReader Storage Logger}.
Arguments given_clock {Clock MetadataReader Storage Logger}.
Arguments given_reader {Clock MetadataReader Storage Logger}.
Arguments given_storage {Clock MetadataReader Storage Logger}.
Arguments given_log {Clock MetadataReader Storage Logger}.
Arguments apply_options {Clock MetadataReader Storage Logger}.
Arguments New {Clock MetadataReader Storage Logger}.

(** Options over collaborators that are numbers: a storage, then two
    clocks. *)
Definition example_settings : list (@setting nat nat nat nat) :=
  [SetStorage (Some 7%nat); SetClock (Some 1%nat); SetClock (Some 2%nat)].

(** [src/server/options.go] *)
Module server.

Section Options.

(** [Clock], [FileReader], [storage.TemporaryStorage] and [Log] are
    interfaces: a value may be nil ([None]). *)
Variables Clock FileReader TemporaryStorage Log : Type.

(** [clock.New()] and [filereader.New()] *)
Variable clock_New : Clock.
Variable filereader_New : FileReader.

(** The fields of the [server] struct that the options and [New] set. *)
Record t := mk {
  serverName : string;
  clock : option Clock;
  fileReader : option FileReader;
  storage : option TemporaryStorage;
  log : option Log
}.

(** The Go type [option]: the server after the call and the error. *)
Definition server_option : Type := t -> t * option string.

Definition WithClock (c : option Clock) : server_option := λ a,
  match c with
  | None => (a, Some "clock is nil"%string)
  | Some _ => (mk (serverName a) c (fileReader a) (storage a) (log a), None)
  end.

Definition WithFileReader (reader : option FileReader) : server_option :=
  λ a,
  match reader with
  | None => (a, Some "reader is nil"%string)
  | Some _ => (mk (serverName a) (clock a) reader (storage a) (log a), None)
  end.

Definition WithStorage (s : option TemporaryStorage) : server_option := λ a,
  match s with
  | None => (a, Some "storage is nil"%string)
  | Some _ => (mk (serverName a) (clock a) (fileReader a) s (log a), None)
  end.

Definition WithLog (l : option Log) : server_option := λ a,
  match l with
  | None => (a, Some "log is nil"%string)
  | Some _ => (mk (serverName a) (clock a) (fileReader a) (storage a) l, None)
  end.

(** The loop of [New]: the first option that fails ends it with
    [&server{}] and the error. *)
Fixpoint apply_options (a : t) (opts : list server_option)
    : t * option string :=
  match opts with
  | [] => (a, None)
  | opt :: rest =>
      match opt a with
      | (_, Some err) => (mk EmptyString None None None None, Some err)
      | (a', None) => apply_options a' rest
      end
  end.

Definition New (name : string) (opts : list server_option)
    : t * option string :=
  apply_options (mk name (Some clock_New) (Some filereader_New) None None)
                opts.

(** The options a caller can build. *)
Inductive setting : Type :=
| SetClock (c : option Clock)
| SetFileReader (reader : option FileReader)
| SetStorage (s : option TemporaryStorage)
| SetLog (l : option Log).

Definition option_of (x : setting) : server_option :=
  match x with
  | SetClock c => WithClock c
  | SetFileReader reader => WithFileReader reader
  | SetStorage s => WithStorage s
  | SetLog l => WithLog l
  end.

(** Whether the option is built on a nil collaborator. *)
Definition is_nil (x : setting) : bool :=
  match x with
  | SetClock None | SetFileReader None | SetStorage None | SetLog None =>
      true
  | _ => false
  end.

End Options.

Arguments mk {Clock FileReader TemporaryStorage Log}.
Arguments serverName {Clock FileReader TemporaryStorage Log}.
Arguments clock {Clock FileReader TemporaryStorage Log}.
Arguments fileReader {Clock FileReader TemporaryStorage Log}.
Arguments storage {Clock FileReader TemporaryStorage Log}.
Arguments log {Clock FileReader TemporaryStorage Log}.
Arguments SetClock {Clock FileReader TemporaryStorage Log}.
Arguments SetFileReader {Clock FileReader TemporaryStorage Log}.
Arguments SetStorage {Clock FileReader TemporaryStorage Log}.
Arguments SetLog {Clock FileReader TemporaryStorage Log}.
Arguments option_of {Clock FileReader TemporaryStorage Log}.
Arguments is_nil {Clock FileReader TemporaryStorage Log}.
Arguments apply_options {Clock FileReader TemporaryStorage Log}.
Arguments New {Clock FileReader TemporaryStorage Log}.

End server.

(** * Properties *)

(** ** Arithmetic of [Int64] *)

Lemma Int64_wrap_in_range z : Int64.in_range (Int64.wrap z).
Proof.
  unfold Int64.in_range, Int64.wrap, Int64.min_int, Int64.max_int.
  pose proof (Z.mod_pos_bound (z + 2 ^ 63) (2 ^ 64) ltac:(lia)). lia.
Qed.

Lemma Int64_wrap_id z : Int64.in_range z -> Int64.wrap z = z.
Proof.
  unfold Int64.in_range, Int64.wrap, Int64.min_int, Int64.max_int. intros H.
  rewrite Z.mod_small; lia.
Qed.

Lemma Int64_wrap_add_l a b : Int64.wrap (Int64.wrap a + b) = Int64.wrap (a + b).
Proof.
  unfold Int64.wrap.
  replace ((a + 2 ^ 63) mod 2 ^ 64 - 2 ^ 63 + b + 2 ^ 63)
    with ((a + 2 ^ 63) mod 2 ^ 64 + b) by lia.
  rewrite Zplus_mod_idemp_l. f_equal. f_equal. lia.
Qed.

Lemma Int64_wrap_add_r a b : Int64.wrap (a + Int64.wrap b) = Int64.wrap (a + b).
Proof. rewrite Z.add_comm, Int64_wrap_add_l. f_equal. lia. Qed.

Lemma Zsum_app l1 l2 : Zsum (l1 ++ l2) = Zsum l1 + Zsum l2.
Proof. induction l1 as [|x l1 IH]; simpl; lia. Qed.

(** ** Stepping through the monad *)

Lemma bind_Ret {A B} (c : M A) (k : A -> M B) w w1 a :
  c w = (w1, Ret a) -> (c ≫= k) w = k a w1.
Proof. intros H. unfold mbind, M_bind, bind. rewrite H. reflexivity. Qed.

Ltac msimpl :=
  cbv beta iota zeta delta
    [mbind M_bind bind ret mret M_ret defer panic load deref_session
     deref_file store_file store_session store_activeClientId
     store_lastHeartbeat new_file mutex_Lock mutex_Unlock clock_GetTime
     time_Now_UnixMilli storage_Save log_PrintFatal set_engine set_heap
     note_access];
  simpl.

(** Runs a computation as far as the hypotheses decide its branches. *)
Ltac mrun :=
  msimpl;
  repeat (match goal with
          | H : ?x = _ |- context [match ?x with _ => _ end] => rewrite H
          end; msimpl).

(** ** Views and intervals *)


Lemma view_lookup (h h' : list File.t) (p : addr) :
  view <$> h' = view <$> h -> view <$> (h' !! p) = view <$> (h !! p).
Proof. intros H. rewrite <- !list_lookup_fmap, H. reflexivity. Qed.

Lemma interval_of_view (h h' : list File.t) path p :
  view <$> h' = view <$> h -> interval_of h' path p = interval_of h path p.
Proof.
  intros H. apply (view_lookup _ _ p) in H. unfold interval_of.
  destruct (h' !! p) as [f'|], (h !! p) as [f|]; simpl in H; try discriminate; auto.
  injection H as H1 H2 H3. rewrite H1, H2, H3. reflexivity.
Qed.

Lemma intervals_view (h h' : list File.t) l path :
  view <$> h' = view <$> h -> intervals h' l path = intervals h l path.
Proof.
  intros H. unfold intervals. induction l as [|p l IH]; csimpl; auto.
  rewrite (interval_of_view h h') by exact H. rewrite IH. reflexivity.
Qed.

Lemma intervals_app h l1 l2 path :
  intervals h (l1 ++ l2) path = intervals h l1 path ++ intervals h l2 path.
Proof. unfold intervals. apply omap_app. Qed.

Lemma view_insert_DurationMs (h : list File.t) (p : addr) f v :
  h !! p = Some f -> view <$> <[p := File.with_DurationMs v f]> h = view <$> h.
Proof.
  intros H. rewrite list_fmap_insert. apply list_insert_id.
  rewrite list_lookup_fmap, H. reflexivity.
Qed.

Lemma intervals_singleton_eq (h : list File.t) p f :
  h !! p = Some f ->
  intervals h [p] (File.Path f) = [File.ClosedAt f - File.OpenedAt f].
Proof.
  intros H. unfold intervals. csimpl. unfold interval_of. rewrite H.
  rewrite decide_True by reflexivity. reflexivity.
Qed.

Lemma intervals_singleton_ne (h : list File.t) p f path :
  h !! p = Some f -> File.Path f ≠ path -> intervals h [p] path = [].
Proof.
  intros H Hne. unfold intervals. csimpl. unfold interval_of. rewrite H.
  rewrite decide_False by exact Hne. reflexivity.
Qed.

Lemma Session_with_Files_id s : Session.with_Files (Session.Files s) s = s.
Proof. destruct s; reflexivity. Qed.

Lemma same_frame_trans w1 w2 w3 :
  same_frame w1 w2 -> same_frame w2 w3 -> same_frame w1 w3.
Proof. unfold same_frame. intuition congruence. Qed.

Ltac frame_refl := unfold same_frame; simpl; repeat split; reflexivity.

Lemma mergeFile_step w s p f processed :
  session (engine w) = Some s ->
  heap w !! p = Some f ->
  merged (heap w) (Session.Files s) processed ->
  ∃ w' F',
    mergeFile p w = (w', Ret tt) ∧
    session (engine w') = Some (Session.with_Files F' s) ∧
    view <$> heap w' = view <$> heap w ∧
    merged (heap w') F' (processed ++ [p]) ∧
    same_frame w w'.
Proof.
  intros Hs Hp Hm. unfold mergeFile. msimpl. rewrite Hp, Hs. msimpl.
  pose proof (Hm (File.Path f)) as Hf.
  destruct (Session.Files s !! File.Path f) as [q|] eqn:HF.
  - destruct Hf as (f0 & Hq & Hpath & Hdur & Hne).
    msimpl. rewrite Hq. msimpl. rewrite Hq.
    eexists _, (Session.Files s). split; [reflexivity|]. simpl.
    rewrite Session_with_Files_id.
    assert (Hv : view <$> <[q := File.with_DurationMs
                (Int64.add (File.DurationMs f0)
                   (Int64.sub (File.ClosedAt f) (File.OpenedAt f))) f0]> (heap w)
                 = view <$> heap w) by (apply view_insert_DurationMs; exact Hq).
    split; [exact Hs|]. split; [exact Hv|]. split; [|frame_refl].
    intros path. rewrite (intervals_view _ _ _ _ Hv), intervals_app.
    destruct (decide (File.Path f = path)) as [<-|Hd].
    + rewrite HF, (intervals_singleton_eq _ _ _ Hp), Zsum_app. eexists. split.
      { apply list_lookup_insert_eq. eapply lookup_lt_Some; exact Hq. }
      split; [exact Hpath|]. split.
      * simpl. rewrite Hdur. unfold Int64.add, Int64.sub.
        rewrite Int64_wrap_add_l, Int64_wrap_add_r. f_equal. lia.
      * intros Hnil. apply app_eq_nil in Hnil. tauto.
    + rewrite (intervals_singleton_ne _ _ _ _ Hp Hd), app_nil_r.
      specialize (Hm path). destruct (Session.Files s !! path) as [q'|]; [|exact Hm].
      destruct Hm as (f1 & Hq' & Hpath' & Hdur' & Hne').
      exists f1. rewrite list_lookup_insert_ne; [auto|].
      intros ->. congruence.
  - msimpl. rewrite Hp. msimpl.
    eexists _, _. split; [reflexivity|]. simpl.
    assert (Hv : view <$> <[p := File.with_DurationMs
                (Int64.sub (File.ClosedAt f) (File.OpenedAt f)) f]> (heap w)
                 = view <$> heap w) by (apply view_insert_DurationMs; exact Hp).
    split; [reflexivity|]. split; [exact Hv|]. split; [|frame_refl].
    intros path. rewrite (intervals_view _ _ _ _ Hv), intervals_app.
    destruct (decide (File.Path f = path)) as [<-|Hd].
    + rewrite lookup_insert_eq, Hf, (intervals_singleton_eq _ _ _ Hp).
      eexists. split.
      { apply list_lookup_insert_eq. eapply lookup_lt_Some; exact Hp. }
      split; [reflexivity|]. split; [|discriminate].
      simpl. unfold Int64.sub. f_equal. lia.
    + rewrite lookup_insert_ne by exact Hd.
      rewrite (intervals_singleton_ne _ _ _ _ Hp Hd), app_nil_r.
      specialize (Hm path). destruct (Session.Files s !! path) as [q'|]; [|exact Hm].
      destruct Hm as (f1 & Hq' & Hpath' & Hdur' & Hne').
      exists f1. rewrite list_lookup_insert_ne; [auto|].
      intros ->. congruence.
Qed.

Lemma is_Some_view (h h' : list File.t) (p : addr) :
  view <$> h' = view <$> h -> is_Some (h !! p) -> is_Some (h' !! p).
Proof.
  intros Hv [f Hf]. apply (view_lookup _ _ p) in Hv. rewrite Hf in Hv.
  destruct (h' !! p); [eauto | discriminate].
Qed.

Lemma for_range_mergeFile l : ∀ w s processed,
  session (engine w) = Some s ->
  Forall (λ p, is_Some (heap w !! p)) l ->
  merged (heap w) (Session.Files s) processed ->
  ∃ w' F',
    for_range l mergeFile w = (w', Ret tt) ∧
    session (engine w') = Some (Session.with_Files F' s) ∧
    view <$> heap w' = view <$> heap w ∧
    merged (heap w') F' (processed ++ l) ∧
    same_frame w w'.
Proof.
  induction l as [|p l IH]; intros w s processed Hs Hl Hm.
  - exists w, (Session.Files s). rewrite Session_with_Files_id, app_nil_r.
    repeat split; auto.
  - apply Forall_cons in Hl as [[f Hp] Hl].
    destruct (mergeFile_step w s p f processed Hs Hp Hm)
      as (w1 & F1 & Hrun & Hs1 & Hv1 & Hm1 & Hfr1).
    destruct (IH w1 (Session.with_Files F1 s) (processed ++ [p]) Hs1)
      as (w2 & F2 & Hrun2 & Hs2 & Hv2 & Hm2 & Hfr2).
    { eapply Forall_impl; [exact Hl|]. intros q. apply is_Some_view, Hv1. }
    { exact Hm1. }
    exists w2, F2. split.
    { simpl. rewrite (bind_Ret _ _ _ _ _ Hrun). exact Hrun2. }
    split; [exact Hs2|]. split; [congruence|].
    split; [|eapply same_frame_trans; eassumption].
    rewrite <- app_assoc in Hm2. exact Hm2.
Qed.

Lemma archiveCurrentFile_spec closedAt w s :
  session (engine w) = Some s ->
  (∀ p, Session.CurrentFile s = Some p → is_Some (heap w !! p)) ->
  ∃ w',
    archiveCurrentFile closedAt w = (w', Ret tt) ∧
    session (engine w') =
      Some (Session.with_OpenFiles (archived s) s) ∧
    heap w' = close_current closedAt (Session.CurrentFile s) (heap w) ∧
    same_frame w w'.
Proof.
  intros Hs Hcur. unfold archiveCurrentFile, close_current, archived. mrun.
  destruct (Session.CurrentFile s) as [p|] eqn:Hc.
  - destruct (Hcur p eq_refl) as [f Hf]. mrun.
    eexists. split; [reflexivity|]. simpl. repeat split.
  - msimpl. eexists. split; [reflexivity|]. simpl. rewrite app_nil_r.
    split; [|repeat split]. rewrite Hs. destruct s; reflexivity.
Qed.

Lemma merged_nil_empty h F : merged h F [] -> F = ∅.
Proof.
  intros Hm. apply map_empty. intros path. specialize (Hm path).
  destruct (F !! path); [|reflexivity].
  destruct Hm as (f & _ & _ & _ & Hne). exfalso. apply Hne. reflexivity.
Qed.

Lemma merged_nonempty (h : list File.t) F l (p : addr) :
  merged h F l -> p ∈ l -> is_Some (h !! p) -> F ≠ ∅.
Proof.
  intros Hm Hin [f Hf] ->. specialize (Hm (File.Path f)).
  rewrite lookup_empty in Hm.
  assert (Hel : File.ClosedAt f - File.OpenedAt f ∈ intervals h l (File.Path f)).
  { apply list_elem_of_omap. exists p. split; [exact Hin|].
    unfold interval_of. rewrite Hf, decide_True by reflexivity. reflexivity. }
  rewrite Hm in Hel. apply not_elem_of_nil in Hel. exact Hel.
Qed.

Lemma for_range_length_guard {A} (l : list A) (body : A -> M unit) w :
  (if (0 <? length l)%nat then for_range l body else ret tt) w
  = for_range l body w.
Proof. destruct l; reflexivity. Qed.

Lemma close_current_lookup closedAt cur (h : list File.t) (p : addr) :
  is_Some (h !! p) -> is_Some (close_current closedAt cur h !! p).
Proof.
  intros Hp. unfold close_current. destruct cur as [q|]; [|exact Hp].
  destruct (h !! q) eqn:Hq; [|exact Hp].
  apply lookup_lt_is_Some. rewrite length_insert. apply lookup_lt_is_Some, Hp.
Qed.

Lemma saveSession_spec env w s :
  session (engine w) = Some s ->
  session_wf (heap w) s ->
  let endedAt := clock_at env (clock_reads w) in
  ∃ w' F',
    saveSession env w = (w', Ret tt) ∧
    engine w' = mkApp (mutex (engine w)) EmptyString (lastHeartbeat (engine w)) None ∧
    view <$> heap w' =
      view <$> close_current endedAt (Session.CurrentFile s) (heap w) ∧
    merged (heap w') F' (archived s) ∧
    clock_reads w' = S (clock_reads w) ∧
    wall_reads w' = wall_reads w ∧
    saves w' =
      (if decide (archived s = []) then saves w
       else saves w ++
              [mkSaveCall (closed_session s endedAt F') (heap w')
                          (save_fails_at env (length (saves w)))]).
Proof.
  intros Hs (Hcur & Hopen & Hfiles) endedAt. unfold saveSession. mrun.
  match goal with
  | |- context [archiveCurrentFile ?c ?W] =>
      destruct (archiveCurrentFile_spec c W s) as (w1 & Hrun1 & Hs1 & Hh1 & Hfr1);
        [exact Hs | exact Hcur | rewrite Hrun1]
  end.
  simpl in Hh1. fold endedAt in Hh1 |- *.
  destruct Hfr1 as (Hmx1 & Hid1 & Hlh1 & Hcr1 & Hwr1 & Hsv1). simpl in *.
  mrun. rewrite for_range_length_guard. simpl.
  match goal with
  | |- context [for_range ?l mergeFile ?W] =>
      destruct (for_range_mergeFile l W
                  (Session.with_DurationMs
                     (Int64.sub endedAt (Session.StartedAt s))
                     (Session.with_EndedAt endedAt
                        (Session.with_OpenFiles (archived s) s))) [])
        as (w2 & F' & Hrun2 & Hs2 & Hv2 & Hm2 & Hfr2);
        [reflexivity | | | rewrite Hrun2]
  end.
  { simpl. rewrite Hh1. apply Forall_app. split.
    - eapply Forall_impl; [exact Hopen|]. intros p. apply close_current_lookup.
    - destruct (Session.CurrentFile s) as [p|]; simpl; [|constructor].
      constructor; [|constructor]. apply close_current_lookup, Hcur. reflexivity. }
  { simpl. rewrite Hfiles. intros path. rewrite lookup_empty. reflexivity. }
  simpl in Hv2, Hm2.
  destruct Hfr2 as (Hmx2 & Hid2 & Hlh2 & Hcr2 & Hwr2 & Hsv2). simpl in *.
  mrun.
  assert (Hsz : (size F' <? 1)%nat = if decide (archived s = []) then true else false).
  { destruct (decide (archived s = [])) as [He|He].
    - rewrite He in Hm2. apply merged_nil_empty in Hm2. subst F'. reflexivity.
    - destruct (archived s) as [|p l] eqn:Ha; [congruence|].
      assert (HF : F' ≠ ∅).
      { apply (merged_nonempty _ _ _ p Hm2); [left|].
        apply (is_Some_view _ _ _ Hv2). rewrite Hh1.
        assert (Hp : p ∈ archived s) by (rewrite Ha; left).
        unfold archived in Hp. apply elem_of_app in Hp as [Hp|Hp].
        - apply close_current_lookup. rewrite Forall_forall in Hopen. auto.
        - destruct (Session.CurrentFile s) as [q|]; simpl in Hp.
          + apply list_elem_of_singleton in Hp as ->.
            apply close_current_lookup, Hcur. reflexivity.
          + apply not_elem_of_nil in Hp. contradiction. }
      apply Nat.ltb_ge. apply map_size_non_empty_iff in HF. lia. }
  rewrite Hsz. clear Hsz.
  destruct (decide (archived s = [])) as [He|He];
    (eexists _, F'; split; [reflexivity|]; simpl;
     rewrite ?Hmx2, ?Hmx1, ?Hlh2, ?Hlh1, ?Hcr2, ?Hcr1, ?Hwr2, ?Hwr1, ?Hsv2, ?Hsv1,
       Hv2, Hh1; repeat split; assumption).
Qed.

(** ** Shapes of the computations of the engine *)

Section Shapes.

Context {A B : Type}.

Lemma no_exit_bind (c : M A) (k : A -> M B) :
  no_exit c -> (∀ a, no_exit (k a)) -> no_exit (c ≫= k).
Proof.
  intros Hc Hk w. unfold mbind, M_bind, bind. specialize (Hc w).
  destruct (c w) as [w1 [a| | |]]; simpl in *; [apply Hk | intuition congruence..].
Qed.

Lemma no_exit_defer (d : M unit) (body : M A) :
  no_exit body -> no_exit (defer d body).
Proof.
  intros Hb w. unfold defer. specialize (Hb w).
  destruct (body w) as [w1 [a| | |]]; simpl in *;
    intuition congruence.
Qed.

Lemma guarded_bind (c : M A) (k : A -> M B) :
  guarded c -> (∀ a, guarded (k a)) -> guarded (c ≫= k).
Proof.
  intros Hc Hk w Hw. unfold mbind, M_bind, bind.
  destruct (Hc w Hw) as [Hm Hu].
  destruct (c w) as [w1 [a| | |]]; simpl in *; auto.
  destruct (Hk a w1 Hm) as [Hm' Hu']. split; congruence.
Qed.

Lemma guarded_defer (d : M unit) (body : M A) :
  guarded d -> guarded body -> guarded (defer d body).
Proof.
  intros Hd Hb w Hw. unfold defer.
  destruct (Hb w Hw) as [Hm Hu].
  destruct (body w) as [w1 [a| | |]]; simpl in *; auto;
    destruct (Hd w1 Hm) as [Hm' Hu']; split; congruence.
Qed.

Lemma saves_only_nonempty_bind (c : M A) (k : A -> M B) :
  saves_only_nonempty c -> (∀ a, saves_only_nonempty (k a)) ->
  saves_only_nonempty (c ≫= k).
Proof.
  intros Hc Hk w. unfold mbind, M_bind, bind.
  destruct (Hc w) as (l1 & Hl1 & Hf1).
  destruct (c w) as [w1 [a| | |]]; simpl in *; eauto.
  destruct (Hk a w1) as (l2 & Hl2 & Hf2).
  exists (l1 ++ l2). rewrite Hl2, Hl1, app_assoc. split; [reflexivity|].
  apply Forall_app; auto.
Qed.

Lemma saves_only_nonempty_defer (d : M unit) (body : M A) :
  saves_only_nonempty d -> saves_only_nonempty body ->
  saves_only_nonempty (defer d body).
Proof.
  intros Hd Hb w. unfold defer.
  destruct (Hb w) as (l1 & Hl1 & Hf1).
  destruct (body w) as [w1 [a| | |]]; simpl in *; eauto;
    destruct (Hd w1) as (l2 & Hl2 & Hf2);
    exists (l1 ++ l2); rewrite Hl2, Hl1, app_assoc;
    (split; [reflexivity | apply Forall_app; auto]).
Qed.

End Shapes.

(** A computation that leaves the log of [Save] calls alone. *)
Lemma saves_only_nonempty_frame {A} (c : M A) :
  (∀ w, saves (fst (c w)) = saves w) -> saves_only_nonempty c.
Proof. intros H w. exists []. rewrite app_nil_r. auto. Qed.

Ltac prim_shape :=
  intros w; msimpl; repeat case_match; simpl; auto; try (split; discriminate).

Lemma no_exit_ret {A} (a : A) : no_exit (ret a). Proof. prim_shape. Qed.
Lemma no_exit_panic {A} : no_exit (@panic A). Proof. prim_shape. Qed.
Lemma no_exit_load {A} (f : app -> A) : no_exit (load f). Proof. prim_shape. Qed.
Lemma no_exit_store_activeClientId v : no_exit (store_activeClientId v).
Proof. prim_shape. Qed.
Lemma no_exit_store_lastHeartbeat v : no_exit (store_lastHeartbeat v).
Proof. prim_shape. Qed.
Lemma no_exit_store_session v : no_exit (store_session v).
Proof. prim_shape. Qed.
Lemma no_exit_deref_session : no_exit deref_session.
Proof. prim_shape. Qed.
Lemma no_exit_deref_file p : no_exit (deref_file p). Proof. prim_shape. Qed.
Lemma no_exit_store_file p f : no_exit (store_file p f). Proof. prim_shape. Qed.
Lemma no_exit_new_file f : no_exit (new_file f). Proof. prim_shape. Qed.
Lemma no_exit_clock_GetTime env : no_exit (clock_GetTime env).
Proof. prim_shape. Qed.
Lemma no_exit_time_Now_UnixMilli env : no_exit (time_Now_UnixMilli env).
Proof. prim_shape. Qed.
Lemma no_exit_storage_Save env s : no_exit (storage_Save env s).
Proof. prim_shape. Qed.
Lemma no_exit_mutex_Unlock : no_exit mutex_Unlock. Proof. prim_shape. Qed.

Lemma no_exit_for_range {A} (l : list A) (body : A -> M unit) :
  (∀ a, no_exit (body a)) -> no_exit (for_range l body).
Proof.
  intros Hb. induction l as [|a l IH]; simpl.
  - apply no_exit_ret.
  - apply no_exit_bind; auto.
Qed.

Create HintDb no_exit.
#[local] Hint Resolve no_exit_ret no_exit_panic no_exit_load
  no_exit_store_activeClientId no_exit_store_lastHeartbeat
  no_exit_store_session no_exit_deref_session no_exit_deref_file
  no_exit_store_file no_exit_new_file no_exit_clock_GetTime
  no_exit_time_Now_UnixMilli no_exit_storage_Save no_exit_mutex_Unlock
  : no_exit.

(** Decomposes a goal [shape c] along the structure of [c]. *)
Ltac shape_of bind_lemma defer_lemma range_lemma leaf :=
  repeat first
    [ progress intros
    | solve [leaf]
    | apply bind_lemma
    | apply defer_lemma
    | apply range_lemma
    | match goal with
      | |- _ (match ?x with _ => _ end) => destruct x
      end ].

Ltac no_exit_tac :=
  shape_of @no_exit_bind @no_exit_defer @no_exit_for_range
           ltac:(auto with no_exit).

Lemma no_exit_archiveCurrentFile closedAt : no_exit (archiveCurrentFile closedAt).
Proof. unfold archiveCurrentFile. no_exit_tac. Qed.

Lemma no_exit_mergeFile p : no_exit (mergeFile p).
Proof. unfold mergeFile. no_exit_tac. Qed.

#[local] Hint Resolve no_exit_archiveCurrentFile no_exit_mergeFile : no_exit.

Lemma no_exit_createSession env os editor : no_exit (createSession env os editor).
Proof. unfold createSession. no_exit_tac. Qed.

Lemma no_exit_updateCurrentFile env path : no_exit (updateCurrentFile env path).
Proof. unfold updateCurrentFile. no_exit_tac. Qed.

Lemma no_exit_saveSession env : no_exit (saveSession env).
Proof. unfold saveSession. no_exit_tac. Qed.

Ltac prim_guarded :=
  intros w Hw; msimpl; repeat case_match; simpl;
  rewrite ?Hw; simpl; rewrite ?orb_false_r; auto; congruence.

Lemma guarded_ret {A} (a : A) : guarded (ret a). Proof. prim_guarded. Qed.
Lemma guarded_panic {A} : guarded (@panic A). Proof. prim_guarded. Qed.
Lemma guarded_load {A} (f : app -> A) : guarded (load f).
Proof. prim_guarded. Qed.
Lemma guarded_store_activeClientId v : guarded (store_activeClientId v).
Proof. prim_guarded. Qed.
Lemma guarded_store_lastHeartbeat v : guarded (store_lastHeartbeat v).
Proof. prim_guarded. Qed.
Lemma guarded_store_session v : guarded (store_session v).
Proof. prim_guarded. Qed.
Lemma guarded_deref_file p : guarded (deref_file p). Proof. prim_guarded. Qed.
Lemma guarded_store_file p f : guarded (store_file p f).
Proof. prim_guarded. Qed.
Lemma guarded_new_file f : guarded (new_file f). Proof. prim_guarded. Qed.
Lemma guarded_clock_GetTime env : guarded (clock_GetTime env).
Proof. prim_guarded. Qed.
Lemma guarded_time_Now_UnixMilli env : guarded (time_Now_UnixMilli env).
Proof. prim_guarded. Qed.
Lemma guarded_storage_Save env s : guarded (storage_Save env s).
Proof. prim_guarded. Qed.
Lemma guarded_log_PrintFatal : guarded log_PrintFatal.
Proof. prim_guarded. Qed.

Lemma guarded_for_range {A} (l : list A) (body : A -> M unit) :
  (∀ a, guarded (body a)) -> guarded (for_range l body).
Proof.
  intros Hb. induction l as [|a l IH]; simpl.
  - apply guarded_ret.
  - apply guarded_bind; auto.
Qed.

Create HintDb guarded.
#[local] Hint Resolve guarded_ret guarded_panic guarded_load
  guarded_store_activeClientId guarded_store_lastHeartbeat
  guarded_store_session guarded_deref_file guarded_store_file
  guarded_new_file guarded_clock_GetTime guarded_time_Now_UnixMilli
  guarded_storage_Save guarded_log_PrintFatal : guarded.

Ltac guarded_tac :=
  shape_of @guarded_bind @guarded_defer @guarded_for_range
           ltac:(auto with guarded).

Lemma guarded_archiveCurrentFile closedAt : guarded (archiveCurrentFile closedAt).
Proof. unfold archiveCurrentFile. guarded_tac. Qed.

Lemma guarded_mergeFile p : guarded (mergeFile p).
Proof. unfold mergeFile. guarded_tac. Qed.

#[local] Hint Resolve guarded_archiveCurrentFile guarded_mergeFile : guarded.

Lemma guarded_createSession env os editor : guarded (createSession env os editor).
Proof. unfold createSession. guarded_tac. Qed.

Lemma guarded_updateCurrentFile env path : guarded (updateCurrentFile env path).
Proof. unfold updateCurrentFile. guarded_tac. Qed.

Lemma guarded_saveSession env : guarded (saveSession env).
Proof. unfold saveSession. guarded_tac. Qed.

#[local] Hint Resolve guarded_createSession guarded_updateCurrentFile
  guarded_saveSession : guarded.

(** The body of a handler runs between [Lock] and the deferred [Unlock]:
    when the body is guarded, the handler makes no unguarded access. *)
Lemma locked_handler_guarded {A} (body : M A) w :
  guarded body ->
  mutex (engine w) = false ->
  unguarded (fst ((mutex_Lock;; defer mutex_Unlock body) w)) = unguarded w.
Proof.
  intros Hb Hw. msimpl. rewrite Hw. msimpl.
  match goal with |- context [body ?W] =>
    destruct (Hb W eq_refl) as [Hm Hu]; destruct (body W) as [w1 [a| | |]]
  end; simpl in *; exact Hu.
Qed.

Ltac prim_frame :=
  apply saves_only_nonempty_frame; intros w; msimpl; repeat case_match;
  reflexivity.

Lemma saves_ret {A} (a : A) : saves_only_nonempty (ret a).
Proof. prim_frame. Qed.
Lemma saves_panic {A} : saves_only_nonempty (@panic A).
Proof. prim_frame. Qed.
Lemma saves_load {A} (f : app -> A) : saves_only_nonempty (load f).
Proof. prim_frame. Qed.
Lemma saves_store_activeClientId v : saves_only_nonempty (store_activeClientId v).
Proof. prim_frame. Qed.
Lemma saves_store_lastHeartbeat v : saves_only_nonempty (store_lastHeartbeat v).
Proof. prim_frame. Qed.
Lemma saves_store_session v : saves_only_nonempty (store_session v).
Proof. prim_frame. Qed.
Lemma saves_deref_file p : saves_only_nonempty (deref_file p).
Proof. prim_frame. Qed.
Lemma saves_store_file p f : saves_only_nonempty (store_file p f).
Proof. prim_frame. Qed.
Lemma saves_new_file f : saves_only_nonempty (new_file f).
Proof. prim_frame. Qed.
Lemma saves_clock_GetTime env : saves_only_nonempty (clock_GetTime env).
Proof. prim_frame. Qed.
Lemma saves_time_Now_UnixMilli env : saves_only_nonempty (time_Now_UnixMilli env).
Proof. prim_frame. Qed.
Lemma saves_log_PrintFatal : saves_only_nonempty log_PrintFatal.
Proof. prim_frame. Qed.
Lemma saves_mutex_Lock : saves_only_nonempty mutex_Lock.
Proof. prim_frame. Qed.
Lemma saves_mutex_Unlock : saves_only_nonempty mutex_Unlock.
Proof. prim_frame. Qed.

(** The one place where [storage.Save] is called. *)
Lemma saves_guarded_Save env (s : Session.t) :
  saves_only_nonempty
    (if (size (Session.Files s) <? 1)%nat then ret tt
     else (_ ← storage_Save env s; ret tt)).
Proof.
  destruct (size (Session.Files s) <? 1)%nat eqn:Hsz.
  - apply saves_ret.
  - intros w. msimpl. eexists. split; [reflexivity|].
    constructor; [|constructor]. simpl.
    apply Nat.ltb_ge in Hsz. apply map_size_non_empty_iff. lia.
Qed.

Lemma saves_for_range {A} (l : list A) (body : A -> M unit) :
  (∀ a, saves_only_nonempty (body a)) -> saves_only_nonempty (for_range l body).
Proof.
  intros Hb. induction l as [|a l IH]; simpl.
  - apply saves_ret.
  - apply saves_only_nonempty_bind; auto.
Qed.

Create HintDb saves.
#[local] Hint Resolve saves_ret saves_panic saves_load
  saves_store_activeClientId saves_store_lastHeartbeat saves_store_session
  saves_deref_file saves_store_file saves_new_file saves_clock_GetTime
  saves_time_Now_UnixMilli saves_log_PrintFatal saves_mutex_Lock
  saves_mutex_Unlock saves_guarded_Save : saves.

Ltac saves_tac :=
  shape_of @saves_only_nonempty_bind @saves_only_nonempty_defer
           @saves_for_range ltac:(auto with saves).

Lemma saves_archiveCurrentFile closedAt :
  saves_only_nonempty (archiveCurrentFile closedAt).
Proof. unfold archiveCurrentFile. saves_tac. Qed.

Lemma saves_mergeFile p : saves_only_nonempty (mergeFile p).
Proof. unfold mergeFile. saves_tac. Qed.

#[local] Hint Resolve saves_archiveCurrentFile saves_mergeFile : saves.

Lemma saves_createSession env os editor :
  saves_only_nonempty (createSession env os editor).
Proof. unfold createSession. saves_tac. Qed.

Lemma saves_updateCurrentFile env path :
  saves_only_nonempty (updateCurrentFile env path).
Proof. unfold updateCurrentFile. saves_tac. Qed.

Lemma saves_saveSession env : saves_only_nonempty (saveSession env).
Proof. unfold saveSession. saves_tac. Qed.

#[local] Hint Resolve saves_createSession saves_updateCurrentFile
  saves_saveSession : saves.

Lemma saves_serve env r : saves_only_nonempty (serve env r).
Proof.
  destruct r; unfold serve, FocusGained, OpenFile, SendHeartbeat, EndSession,
    CheckHeartbeat, heartbeat_expired, close_expired; saves_tac.
Qed.

(** The handlers return the nil error on every path that returns. *)
Lemma returns_nil_bind {A} (c : M A) (k : A -> M rpc_result) :
  (∀ a, returns_nil (k a)) -> returns_nil (c ≫= k).
Proof.
  intros Hk w r. unfold mbind, M_bind, bind.
  destruct (c w) as [w1 [a| | |]]; simpl; try discriminate. apply Hk.
Qed.

Lemma returns_nil_defer (d : M unit) (body : M rpc_result) :
  returns_nil body -> returns_nil (defer d body).
Proof.
  intros Hb w r. unfold defer. specialize (Hb w r).
  destruct (body w) as [w1 [a| | |]]; simpl in *; try discriminate. exact Hb.
Qed.

Lemma returns_nil_ret (reply : option string) : returns_nil (ret (reply, None)).
Proof. intros w r [= <-]. reflexivity. Qed.

Lemma handlers_return_nil env event :
  returns_nil (FocusGained env event) ∧
  returns_nil (OpenFile env event) ∧
  returns_nil (SendHeartbeat env event) ∧
  returns_nil (EndSession env event).
Proof.
  unfold FocusGained, OpenFile, SendHeartbeat, EndSession.
  repeat split;
    repeat first
      [ progress intros
      | apply returns_nil_ret
      | apply returns_nil_defer
      | apply returns_nil_bind
      | match goal with
        | |- returns_nil (match ?x with _ => _ end) => destruct x
        end ].
Qed.

(** ** The close path *)

Lemma saveSession_nil env w :
  session (engine w) = None ->
  ∃ w', saveSession env w = (w', Ret tt) ∧
        engine w' = mkApp (mutex (engine w)) EmptyString (lastHeartbeat (engine w)) None ∧
        heap w' = heap w ∧ clock_reads w' = clock_reads w ∧
        wall_reads w' = wall_reads w ∧ saves w' = saves w.
Proof.
  intros Hs. unfold saveSession. mrun. eexists. split; [reflexivity|].
  simpl. auto 10.
Qed.

Lemma defer_world {A} (d : M unit) (body : M A) w :
  snd (defer d body w) ≠ Fatal -> snd (defer d body w) ≠ Blocked ->
  ∃ w1, fst (defer d body w) = fst (d w1).
Proof.
  unfold defer. destruct (body w) as [w1 [a| | |]]; simpl; intros H1 H2;
    try congruence; eauto.
Qed.

(** C6: whatever happens on the close path (no session, session dropped
    because it has no file, [Save] succeeding or failing), [saveSession]
    leaves [activeClientId] empty and [session] nil.  It has no result to
    carry an error: it returns normally in every consistent world, whatever
    the storage answers, and can only panic on a dangling file pointer; and
    the two remote procedures that close a session return the nil error. *)
Theorem saveSession_returns_to_idle env w :
  activeClientId (engine (fst (saveSession env w))) = EmptyString ∧
  session (engine (fst (saveSession env w))) = None ∧
  (snd (saveSession env w) = Ret tt ∨ snd (saveSession env w) = Panic) ∧
  (wf_world w -> snd (saveSession env w) = Ret tt) ∧
  (∀ event, returns_nil (EndSession env event) ∧
            returns_nil (FocusGained env event)).
Proof.
  destruct (no_exit_saveSession env w) as [Hf Hb].
  assert (Hidle : activeClientId (engine (fst (saveSession env w))) = EmptyString ∧
                  session (engine (fst (saveSession env w))) = None).
  { unfold saveSession in *. destruct (defer_world _ _ _ Hf Hb) as [w1 ->].
    split; reflexivity. }
  destruct Hidle as [Ha Hs]. split; [exact Ha|]. split; [exact Hs|].
  split; [|split].
  - destruct (snd (saveSession env w)) as [[]| | |]; auto; congruence.
  - unfold wf_world. intros Hwf. destruct (session (engine w)) as [s|] eqn:Hsess.
    + destruct (saveSession_spec env w s Hsess Hwf) as (w' & F' & -> & _).
      reflexivity.
    + destruct (saveSession_nil env w Hsess) as (w' & -> & _). reflexivity.
  - intros event. destruct (handlers_return_nil env event) as (HF & _ & _ & HE).
    split; assumption.
Qed.

Lemma saveSession_returns_to_idle_witness :
  wf_world unsaved_world ∧
  snd (saveSession failing_store_env unsaved_world) = Ret tt ∧
  activeClientId (engine (fst (saveSession failing_store_env unsaved_world))) = EmptyString ∧
  session (engine (fst (saveSession failing_store_env unsaved_world))) = None ∧
  saved_failed <$> saves (fst (saveSession failing_store_env unsaved_world)) = [true].
Proof.
  assert (Hwf : wf_world unsaved_world).
  { vm_compute. repeat split; [intros p [= <-]; eauto | constructor]. }
  destruct (saveSession_returns_to_idle failing_store_env unsaved_world)
    as (Ha & Hs & _ & Hr & _).
  split; [exact Hwf|]. split; [exact (Hr Hwf)|]. split; [exact Ha|].
  split; [exact Hs|]. vm_compute. reflexivity.
Defined.

(** C5: a session is handed to [storage.Save] only with a non-empty
    [Files] map, by [saveSession] and hence by every operation of the
    engine, in every world; and a consistent session that has archived no
    file, whose merged map is therefore empty, is dropped without a call of
    [Save], while one that has archived a file is handed over. *)
Theorem empty_session_never_saved env :
  (∀ w, ∃ l, saves (fst (saveSession env w)) = saves w ++ l ∧
             Forall (λ c, Session.Files (saved_session c) ≠ ∅) l) ∧
  (∀ r w, ∃ l, saves (fst (serve env r w)) = saves w ++ l ∧
               Forall (λ c, Session.Files (saved_session c) ≠ ∅) l) ∧
  (∀ w s, session (engine w) = Some s -> session_wf (heap w) s ->
          (saves (fst (saveSession env w)) = saves w <-> archived s = [])).
Proof.
  split; [|split].
  - apply saves_saveSession.
  - intros r. apply saves_serve.
  - intros w s Hs Hwf.
    destruct (saveSession_spec env w s Hs Hwf)
      as (w' & F' & -> & _ & _ & _ & _ & _ & Hsv).
    simpl. rewrite Hsv. destruct (decide (archived s = [])) as [He|He].
    + tauto.
    + split; [|tauto]. intros Heq. apply (f_equal length) in Heq.
      rewrite length_app in Heq. simpl in Heq. lia.
Qed.

Lemma empty_session_never_saved_witness :
  session (engine unsaved_world) = Some one_file_session ∧
  session_wf (heap unsaved_world) one_file_session ∧
  archived one_file_session ≠ [] ∧
  saves (fst (saveSession failing_store_env unsaved_world)) ≠ saves unsaved_world.
Proof.
  assert (Hwf : session_wf (heap unsaved_world) one_file_session).
  { repeat split; [intros p [= <-]; vm_compute; eauto | constructor]. }
  split; [reflexivity|]. split; [exact Hwf|]. split; [discriminate|].
  destruct (empty_session_never_saved failing_store_env) as (_ & _ & Hiff).
  intros Heq. apply (Hiff unsaved_world one_file_session eq_refl Hwf) in Heq.
  discriminate Heq.
Defined.

(** ** FocusGained *)

(** C4: a FocusGained event of the active client only records the
    heartbeat: the session object, the files it points to, the active
    client and the log of saved sessions are unchanged, [lastHeartbeat] is
    the reading of the clock, and the call returns nil. *)
Theorem FocusGained_same_client env event w :
  mutex (engine w) = false ->
  activeClientId (engine w) = Id event ->
  ∃ w', FocusGained env event w = (w', Ret (None, None)) ∧
        session (engine w') = session (engine w) ∧
        activeClientId (engine w') = activeClientId (engine w) ∧
        heap w' = heap w ∧
        saves w' = saves w ∧
        mutex (engine w') = false ∧
        lastHeartbeat (engine w') = clock_at env (clock_reads w).
Proof.
  intros Hm Ha. unfold FocusGained. mrun. rewrite Ha, String.eqb_refl. msimpl.
  eexists. split; [reflexivity|]. simpl. auto 10.
Qed.

Lemma FocusGained_same_client_witness :
  mutex (engine focused_world) = false ∧
  activeClientId (engine focused_world) = Id (example_event "A" "/repo/a.go") ∧
  ∃ w', FocusGained focus_env (example_event "A" "/repo/a.go") focused_world
          = (w', Ret (None, None)) ∧
        session (engine w') = session (engine focused_world) ∧
        activeClientId (engine w') = activeClientId (engine focused_world) ∧
        heap w' = heap focused_world ∧
        saves w' = saves focused_world ∧
        mutex (engine w') = false ∧
        lastHeartbeat (engine w') = 50.
Proof.
  split; [reflexivity|]. split; [reflexivity|].
  apply (FocusGained_same_client focus_env
           (example_event "A" "/repo/a.go") focused_world); reflexivity.
Defined.

(** ** EndSession *)

(** When the active client identifier has at least two characters, an
    EndSession event of another client exits the process before any field
    of the engine is written. *)
Lemma EndSession_other_client_fatal env event w :
  mutex (engine w) = false ->
  (1 < String.length (activeClientId (engine w)))%nat ->
  activeClientId (engine w) ≠ Id event ->
  ∃ w', EndSession env event w = (w', Fatal) ∧
        session (engine w') = session (engine w) ∧
        activeClientId (engine w') = activeClientId (engine w) ∧
        lastHeartbeat (engine w') = lastHeartbeat (engine w) ∧
        heap w' = heap w ∧ saves w' = saves w.
Proof.
  intros Hm Hlen Hne. unfold EndSession. mrun.
  apply Nat.ltb_lt in Hlen. rewrite Hlen.
  apply String.eqb_neq in Hne. rewrite Hne. msimpl.
  eexists. split; [reflexivity|]. simpl. auto 10.
Qed.

(** C1 fails for an active client identifier of one character: with the
    session of client ["A"] in flight, EndSession of client ["B"] passes the
    guard [len(app.activeClientId) > 1], saves the session of ["A"], resets
    the engine and returns nil. *)
Theorem EndSession_other_client_one_character :
  activeClientId (engine one_character_world) = "A"%string ∧
  (∃ s, session (engine one_character_world) = Some s) ∧
  snd (EndSession one_character_env (example_event "B" EmptyString) one_character_world)
    = Ret (Some "The session was ended successfully."%string, None) ∧
  session (engine (fst (EndSession one_character_env (example_event "B" EmptyString)
                          one_character_world))) = None ∧
  activeClientId (engine (fst (EndSession one_character_env (example_event "B" EmptyString)
                                 one_character_world))) = EmptyString ∧
  length (saves (fst (EndSession one_character_env (example_event "B" EmptyString)
                        one_character_world))) = 1%nat.
Proof.
  split; [reflexivity|]. split; [vm_compute; eauto|].
  repeat split; vm_compute; reflexivity.
Qed.

(** ** The invariant of the engine *)

Lemma session_wf_fresh h startedAt os editor :
  session_wf h (Session.mk startedAt 0 0 os editor None [] ∅).
Proof. repeat split; [discriminate | constructor]. Qed.

Lemma updateCurrentFile_spec env path w s :
  session (engine w) = Some s ->
  session_wf (heap w) s ->
  ∃ w' s',
    updateCurrentFile env path w = (w', Ret tt) ∧
    session (engine w') = Some s' ∧
    session_wf (heap w') s' ∧
    Session.StartedAt s' = Session.StartedAt s ∧
    mutex (engine w') = mutex (engine w) ∧
    activeClientId (engine w') = activeClientId (engine w) ∧
    lastHeartbeat (engine w') = lastHeartbeat (engine w) ∧
    clock_reads w' = S (clock_reads w) ∧
    wall_reads w' = wall_reads w ∧
    saves w' = saves w.
Proof.
  intros Hs Hwf. pose proof Hwf as (Hcur & Hopen & Hfiles).
  unfold updateCurrentFile. mrun.
  destruct (metadata_of env path) as [md|].
  - match goal with
    | |- context [archiveCurrentFile ?c ?W] =>
        destruct (archiveCurrentFile_spec c W s Hs Hcur)
          as (w1 & Hrun1 & Hs1 & Hh1 & Hfr1); rewrite Hrun1
    end.
    destruct Hfr1 as (Hmx1 & Hid1 & Hlh1 & Hcr1 & Hwr1 & Hsv1). simpl in *.
    mrun. eexists _, _. split; [reflexivity|]. simpl.
    split; [reflexivity|]. split; [|auto 10].
    assert (Hlive : ∀ p, p ∈ archived s → is_Some (heap w1 !! p)).
    { intros p Hp. rewrite Hh1. apply close_current_lookup.
      unfold archived in Hp. apply elem_of_app in Hp as [Hp|Hp].
      - rewrite Forall_forall in Hopen. auto.
      - destruct (Session.CurrentFile s) as [q|]; simpl in Hp.
        + apply list_elem_of_singleton in Hp as ->. auto.
        + apply not_elem_of_nil in Hp. contradiction. }
    repeat split; simpl.
    + intros p [= <-]. rewrite list_lookup_middle by reflexivity. eauto.
    + apply Forall_forall. intros p Hp. destruct (Hlive p Hp) as [f Hf].
      exists f. apply lookup_app_l_Some. exact Hf.
    + exact Hfiles.
  - msimpl. eexists _, s. split; [reflexivity|]. simpl. auto 10.
Qed.

Lemma closed_current_file env w s w' p :
  session_wf (heap w) s ->
  view <$> heap w' =
    view <$> close_current (clock_at env (clock_reads w))
               (Session.CurrentFile s) (heap w) ->
  Session.CurrentFile s = Some p ->
  ∃ f, heap w' !! p = Some f ∧ File.ClosedAt f = clock_at env (clock_reads w).
Proof.
  intros (Hcur & _ & _) Hv Hp. destruct (Hcur p Hp) as [f0 Hf0].
  apply (view_lookup _ _ p) in Hv. rewrite Hp in Hv. unfold close_current in Hv.
  rewrite Hf0 in Hv.
  rewrite list_lookup_insert_eq in Hv by (eapply lookup_lt_Some; exact Hf0).
  destruct (heap w' !! p) as [f|]; [|discriminate].
  exists f. split; [reflexivity|]. simpl in Hv. injection Hv as _ _ Hc. exact Hc.
Qed.

Lemma saveSession_consistent env w :
  consistent w ->
  ∃ w',
    saveSession env w = (w', Ret tt) ∧
    engine w' = mkApp (mutex (engine w)) EmptyString (lastHeartbeat (engine w)) None ∧
    Forall save_call_merged (saves w').
Proof.
  intros [Hwf Hsaves]. unfold wf_world in Hwf.
  destruct (session (engine w)) as [s|] eqn:Hs.
  - destruct (saveSession_spec env w s Hs Hwf)
      as (w' & F' & Hrun & He & Hv & Hm & _ & _ & Hsv).
    exists w'. split; [exact Hrun|]. split; [exact He|].
    rewrite Hsv. destruct (decide (archived s = [])); [exact Hsaves|].
    apply Forall_app. split; [exact Hsaves|]. constructor; [|constructor].
    split; simpl; [|exact Hm].
    intros p Hp. split.
    + unfold archived. rewrite Hp. apply elem_of_app. right. simpl. left.
    + exact (closed_current_file env w s w' p Hwf Hv Hp).
  - destruct (saveSession_nil env w Hs) as (w' & Hrun & He & _ & _ & _ & Hsv).
    exists w'. rewrite Hsv. auto.
Qed.

(** Uses the characterisation of [updateCurrentFile] on a world whose
    session was just created. *)
Ltac step_update_fresh env :=
  match goal with
  | |- context [updateCurrentFile env ?p ?W] =>
      let w' := fresh "w" in
      let s' := fresh "s" in
      let Hrun := fresh "Hrun" in
      let Hs' := fresh "Hs" in
      let Hwf' := fresh "Hwf" in
      let Hrest := fresh "Hrest" in
      destruct (updateCurrentFile_spec env p W _ eq_refl
                  (session_wf_fresh _ _ _ _))
        as (w' & s' & Hrun & Hs' & Hwf' & Hrest);
      rewrite Hrun; simpl in Hrest;
      destruct Hrest as (? & ? & ? & ? & ? & ? & ?)
  end.

Ltac consistent_now :=
  unfold consistent, wf_world; simpl;
  repeat match goal with
         | H : session (engine ?w) = _ |- context [session (engine ?w)] =>
             rewrite H
         | H : saves ?w = _ |- context [saves ?w] => rewrite H
         end;
  auto.

Lemma FocusGained_consistent env event w :
  mutex (engine w) = false ->
  consistent w ->
  ∃ w' r, FocusGained env event w = (w', Ret r) ∧
          consistent w' ∧ mutex (engine w') = false.
Proof.
  intros Hm Hc. unfold FocusGained, createSession. mrun.
  destruct (String.eqb (activeClientId (engine w)) (Id event)).
  - msimpl. eexists _, _. split; [reflexivity|]. split; [exact Hc | reflexivity].
  - destruct Hc as [Hwf Hsv]. unfold wf_world in Hwf.
    destruct (session (engine w)) as [s|] eqn:Hs; mrun.
    + match goal with
      | |- context [saveSession env ?W] =>
          destruct (saveSession_consistent env W)
            as (w1 & Hrun1 & He1 & Hsv1);
            [split; [unfold wf_world; simpl; rewrite ?Hs; exact Hwf | exact Hsv]
            | rewrite Hrun1]
      end.
      simpl in He1. mrun. rewrite He1. simpl.
      step_update_fresh env. mrun.
      eexists _, _. split; [reflexivity|]. split; [consistent_now|]. simpl. congruence.
    + step_update_fresh env. mrun.
      eexists _, _. split; [reflexivity|]. split; [consistent_now|]. simpl. congruence.
Qed.

Lemma OpenFile_consistent env event w :
  mutex (engine w) = false ->
  consistent w ->
  ∃ w' r, OpenFile env event w = (w', Ret r) ∧
          consistent w' ∧ mutex (engine w') = false.
Proof.
  intros Hm [Hwf Hsv]. unfold OpenFile, createSession. mrun.
  unfold wf_world in Hwf.
  destruct (session (engine w)) as [s|] eqn:Hs; mrun.
  - match goal with
    | |- context [updateCurrentFile env ?p ?W] =>
        destruct (updateCurrentFile_spec env p W s eq_refl Hwf)
          as (w1 & s1 & Hrun1 & Hs1 & Hwf1 & Hrest); rewrite Hrun1
    end.
    simpl in Hrest. destruct Hrest as (? & ? & ? & ? & ? & ? & ?). mrun.
    eexists _, _. split; [reflexivity|]. split; [consistent_now|]. simpl. congruence.
  - step_update_fresh env. mrun.
    eexists _, _. split; [reflexivity|]. split; [consistent_now|]. simpl. congruence.
Qed.

Lemma SendHeartbeat_consistent env event w :
  mutex (engine w) = false ->
  consistent w ->
  ∃ w' r, SendHeartbeat env event w = (w', Ret r) ∧
          consistent w' ∧ mutex (engine w') = false.
Proof.
  intros Hm [Hwf Hsv]. unfold SendHeartbeat, createSession. mrun.
  unfold wf_world in Hwf.
  destruct (session (engine w)) as [s|] eqn:Hs; mrun.
  - eexists _, _. split; [reflexivity|]. split; [consistent_now | reflexivity].
  - step_update_fresh env. mrun.
    eexists _, _. split; [reflexivity|]. split; [consistent_now|]. simpl. congruence.
Qed.

Lemma EndSession_consistent env event w :
  mutex (engine w) = false ->
  consistent w ->
  ∃ w' r, EndSession env event w = (w', r) ∧
          (r = Fatal ∨
           ∃ a, r = Ret a ∧ consistent w' ∧ mutex (engine w') = false).
Proof.
  intros Hm Hc. unfold EndSession. mrun.
  destruct ((1 <? String.length (activeClientId (engine w)))%nat
            && negb (String.eqb (activeClientId (engine w)) (Id event))).
  - msimpl. eexists _, _. split; [reflexivity|]. left. reflexivity.
  - msimpl.
    destruct (String.eqb (activeClientId (engine w)) EmptyString
              && (if session (engine w) is None then true else false)).
    + msimpl. eexists _, _. split; [reflexivity|]. right.
      eexists. split; [reflexivity|]. split; [exact Hc | reflexivity].
    + msimpl.
      match goal with
      | |- context [saveSession env ?W] =>
          destruct (saveSession_consistent env W) as (w1 & Hrun1 & He1 & Hsv1);
            [exact Hc | rewrite Hrun1]
      end.
      simpl in He1. mrun. eexists _, _. split; [reflexivity|]. right.
      eexists. split; [reflexivity|]. rewrite He1.
      split; [consistent_now | reflexivity].
Qed.

Lemma CheckHeartbeat_consistent env w :
  mutex (engine w) = false ->
  consistent w ->
  ∃ w', CheckHeartbeat env w = (w', Ret tt) ∧
        consistent w' ∧ mutex (engine w') = false.
Proof.
  intros Hm Hc. unfold CheckHeartbeat, heartbeat_expired, close_expired. mrun.
  destruct (session (engine w)) as [s|] eqn:Hs; mrun.
  - destruct (_ <? _).
    + mrun.
      match goal with
      | |- context [saveSession env ?W] =>
          destruct (saveSession_consistent env W) as (w1 & Hrun1 & He1 & Hsv1);
            [|rewrite Hrun1]
      end.
      { destruct Hc as [Hwf Hsv]. unfold wf_world in Hwf. rewrite Hs in Hwf.
        split; [unfold wf_world; simpl; rewrite Hs; exact Hwf | exact Hsv]. }
      simpl in He1. mrun. eexists. split; [reflexivity|]. rewrite He1.
      split; [consistent_now | reflexivity].
    + msimpl. eexists. split; [reflexivity|].
      destruct Hc as [Hwf Hsv]. unfold wf_world in Hwf. rewrite Hs in Hwf.
      split; [|exact Hm]. split; [unfold wf_world; simpl; rewrite Hs; exact Hwf | exact Hsv].
  - eexists. split; [reflexivity|].
    destruct Hc as [Hwf Hsv].
    split; [|exact Hm]. split; [unfold wf_world; simpl; rewrite Hs; exact I | exact Hsv].
Qed.

Lemma serve_consistent env r w w' :
  mutex (engine w) = false ->
  consistent w ->
  serve env r w = (w', Ret tt) ->
  consistent w' ∧ mutex (engine w') = false.
Proof.
  intros Hm Hc Hrun. destruct r as [event|event|event|event|]; simpl in Hrun.
  - destruct (FocusGained_consistent env event w Hm Hc) as (w1 & a & Heq & H).
    rewrite (bind_Ret _ _ _ _ _ Heq) in Hrun. injection Hrun as <-. exact H.
  - destruct (OpenFile_consistent env event w Hm Hc) as (w1 & a & Heq & H).
    rewrite (bind_Ret _ _ _ _ _ Heq) in Hrun. injection Hrun as <-. exact H.
  - destruct (SendHeartbeat_consistent env event w Hm Hc) as (w1 & a & Heq & H).
    rewrite (bind_Ret _ _ _ _ _ Heq) in Hrun. injection Hrun as <-. exact H.
  - destruct (EndSession_consistent env event w Hm Hc)
      as (w1 & a & Heq & [-> | (b & -> & H)]).
    + unfold mbind, M_bind, bind in Hrun. rewrite Heq in Hrun. discriminate.
    + rewrite (bind_Ret _ _ _ _ _ Heq) in Hrun. injection Hrun as <-. exact H.
  - destruct (CheckHeartbeat_consistent env w Hm Hc) as (w1 & Heq & H).
    rewrite Heq in Hrun. injection Hrun as <-. exact H.
Qed.

Lemma reachable_consistent env w :
  reachable env w -> consistent w ∧ mutex (engine w) = false.
Proof.
  induction 1 as [|w r w' Hreach [Hc Hm] Hrun].
  - split; [|reflexivity]. split; [exact I | constructor].
  - exact (serve_consistent env r w w' Hm Hc Hrun).
Qed.

(** Serving a request returns, unless it is an EndSession that exits. *)
Lemma serve_returns env r w :
  reachable env w ->
  ∃ w', serve env r w = (w', Ret tt) ∨ serve env r w = (w', Fatal).
Proof.
  intros Hreach. destruct (reachable_consistent env w Hreach) as [Hc Hm].
  destruct r as [event|event|event|event|]; simpl.
  - destruct (FocusGained_consistent env event w Hm Hc) as (w1 & a & Heq & _).
    exists w1. left. rewrite (bind_Ret _ _ _ _ _ Heq). reflexivity.
  - destruct (OpenFile_consistent env event w Hm Hc) as (w1 & a & Heq & _).
    exists w1. left. rewrite (bind_Ret _ _ _ _ _ Heq). reflexivity.
  - destruct (SendHeartbeat_consistent env event w Hm Hc) as (w1 & a & Heq & _).
    exists w1. left. rewrite (bind_Ret _ _ _ _ _ Heq). reflexivity.
  - destruct (EndSession_consistent env event w Hm Hc)
      as (w1 & a & Heq & [-> | (b & -> & _)]); exists w1.
    + right. unfold mbind, M_bind, bind. rewrite Heq. reflexivity.
    + left. rewrite (bind_Ret _ _ _ _ _ Heq). reflexivity.
  - destruct (CheckHeartbeat_consistent env w Hm Hc) as (w1 & Heq & _).
    exists w1. left. exact Heq.
Qed.

Lemma run_reachable env rs : ∀ w, reachable env w -> reachable env (run env rs w).
Proof.
  induction rs as [|r rs IH]; intros w Hw; simpl; [exact Hw|].
  destruct (serve env r w) as [w' [[]| | |]] eqn:Hrun; try exact Hw.
  apply IH. exact (reachable_serve env w r w' Hw Hrun).
Qed.

(** [EndSession] exits the process exactly when the active client
    identifier has at least two characters and is not the one of the
    event. *)
Lemma EndSession_fatal_iff env event w :
  mutex (engine w) = false ->
  consistent w ->
  snd (EndSession env event w) = Fatal <->
  (1 < String.length (activeClientId (engine w)))%nat ∧
  activeClientId (engine w) ≠ Id event.
Proof.
  intros Hm Hc. split.
  - intros Hfatal.
    destruct ((1 <? String.length (activeClientId (engine w)))%nat) eqn:Hlen.
    + apply Nat.ltb_lt in Hlen. split; [exact Hlen|]. intros Heq.
      revert Hfatal. unfold EndSession. mrun. rewrite Heq, String.eqb_refl.
      rewrite andb_false_r. msimpl.
      destruct (_ && _); msimpl; [discriminate|].
      match goal with
      | |- context [saveSession env ?W] =>
          destruct (saveSession_consistent env W Hc) as (w1 & -> & _)
      end.
      discriminate.
    + exfalso. revert Hfatal. unfold EndSession. mrun. rewrite Hlen. msimpl.
      destruct (_ && _); msimpl; [discriminate|].
      match goal with
      | |- context [saveSession env ?W] =>
          destruct (saveSession_consistent env W Hc) as (w1 & -> & _)
      end.
      discriminate.
  - intros [Hlen Hne].
    destruct (EndSession_other_client_fatal env event w Hm Hlen Hne)
      as (w' & -> & _).
    reflexivity.
Qed.

(** ** Merged durations *)

(** C2: in every run of the engine, a session handed to [storage.Save] has,
    for every path, [Files[path].DurationMs] equal to the int64 sum of
    [ClosedAt - OpenedAt] over the entries of [OpenFiles] with that path,
    however many there are (and to their exact sum when it fits in an
    int64); paths without an entry have no interval; and the current file
    was archived into [OpenFiles] with the end of the session as its
    [ClosedAt]. *)
Theorem saved_duration_is_sum_of_intervals env w c :
  reachable env w ->
  c ∈ saves w ->
  let s := saved_session c in
  let h := saved_heap c in
  (∀ path,
     match Session.Files s !! path with
     | Some q =>
         ∃ f, h !! q = Some f ∧ File.Path f = path ∧
              intervals h (Session.OpenFiles s) path ≠ [] ∧
              File.DurationMs f =
                Int64.wrap (Zsum (intervals h (Session.OpenFiles s) path)) ∧
              (Int64.in_range (Zsum (intervals h (Session.OpenFiles s) path)) ->
               File.DurationMs f = Zsum (intervals h (Session.OpenFiles s) path))
     | None => intervals h (Session.OpenFiles s) path = []
     end) ∧
  (∀ p, Session.CurrentFile s = Some p ->
        p ∈ Session.OpenFiles s ∧
        ∃ f, h !! p = Some f ∧ File.ClosedAt f = Session.EndedAt s).
Proof.
  intros Hreach Hc s h.
  destruct (reachable_consistent env w Hreach) as [[_ Hsaves] _].
  rewrite Forall_forall in Hsaves. destruct (Hsaves c Hc) as [Hcur Hm].
  fold s h in Hcur, Hm. split; [|exact Hcur].
  intros path. specialize (Hm path).
  destruct (Session.Files s !! path) as [q|]; [|exact Hm].
  destruct Hm as (f & Hq & Hp & Hd & Hne). exists f.
  repeat split; auto. intros Hr. rewrite Hd. apply Int64_wrap_id, Hr.
Qed.

Lemma saved_duration_is_sum_of_intervals_witness :
  reachable reopen_env reopen_world ∧
  reopen_call ∈ saves reopen_world ∧
  Session.Files (saved_session reopen_call) !! "/repo/a.go"%string = Some 0%nat ∧
  intervals (saved_heap reopen_call)
            (Session.OpenFiles (saved_session reopen_call)) "/repo/a.go"
    = [1000; 500] ∧
  ∃ f, saved_heap reopen_call !! 0%nat = Some f ∧ File.DurationMs f = 1500.
Proof.
  assert (Hreach : reachable reopen_env reopen_world)
    by apply run_reachable, reachable_initial.
  assert (Hin : reopen_call ∈ saves reopen_world) by (vm_compute; left).
  assert (Hfile : Session.Files (saved_session reopen_call) !! "/repo/a.go"%string
                  = Some 0%nat) by reflexivity.
  assert (Hiv : intervals (saved_heap reopen_call)
                  (Session.OpenFiles (saved_session reopen_call)) "/repo/a.go"
                = [1000; 500]) by reflexivity.
  split; [exact Hreach|]. split; [exact Hin|]. split; [exact Hfile|].
  split; [exact Hiv|].
  destruct (saved_duration_is_sum_of_intervals reopen_env reopen_world
              reopen_call Hreach Hin) as [Hsum _].
  specialize (Hsum "/repo/a.go"%string). rewrite Hfile, Hiv in Hsum.
  destruct Hsum as (f & Hf & _ & _ & _ & Hexact).
  exists f. split; [exact Hf|]. apply Hexact. vm_compute. split; discriminate.
Defined.

(** ** CheckHeartbeat *)

Lemma heartbeat_guard lh now :
  Int64.in_range (lh + HeartbeatTTL_ms) ->
  (Int64.add lh HeartbeatTTL_ms <? now) = true <-> HeartbeatTTL_ms < now - lh.
Proof.
  intros Hr. unfold Int64.add. rewrite Int64_wrap_id by exact Hr.
  rewrite Z.ltb_lt. lia.
Qed.

(** C3: in every world the engine reaches with a session in flight,
    [CheckHeartbeat] closes the session exactly when
    [now - lastHeartbeat] is strictly greater than the time to live; then
    the session is persisted unless it has no file.  At
    [now - lastHeartbeat = HeartbeatTTL] and below, nothing changes.  The
    sum [lastHeartbeat + HeartbeatTTL] is assumed to fit in an int64, as it
    does for every reading of a millisecond clock. *)
Theorem CheckHeartbeat_closes_iff_expired env w s :
  reachable env w ->
  session (engine w) = Some s ->
  Int64.in_range (lastHeartbeat (engine w) + HeartbeatTTL_ms) ->
  let now := clock_at env (clock_reads w) in
  let endedAt := clock_at env (S (clock_reads w)) in
  ∃ w',
    CheckHeartbeat env w = (w', Ret tt) ∧
    (session (engine w') = None <-> HeartbeatTTL_ms < now - lastHeartbeat (engine w)) ∧
    (HeartbeatTTL_ms < now - lastHeartbeat (engine w) ->
       activeClientId (engine w') = EmptyString ∧
       ∃ F', merged (heap w') F' (archived s) ∧
             saves w' =
               (if decide (archived s = []) then saves w
                else saves w ++
                       [mkSaveCall (closed_session s endedAt F') (heap w')
                                   (save_fails_at env (length (saves w)))])) ∧
    (now - lastHeartbeat (engine w) <= HeartbeatTTL_ms ->
       engine w' = engine w ∧ heap w' = heap w ∧ saves w' = saves w).
Proof.
  intros Hreach Hs Hr now endedAt.
  destruct (reachable_consistent env w Hreach) as [[Hwf _] Hm].
  unfold wf_world in Hwf. rewrite Hs in Hwf.
  unfold CheckHeartbeat, heartbeat_expired. mrun. fold now.
  pose proof (heartbeat_guard (lastHeartbeat (engine w)) now Hr) as Hg.
  destruct (Int64.add (lastHeartbeat (engine w)) HeartbeatTTL_ms <? now) eqn:Hlt.
  - assert (Hexp : HeartbeatTTL_ms < now - lastHeartbeat (engine w))
      by (apply Hg; reflexivity).
    unfold close_expired. mrun.
    match goal with
    | |- context [saveSession env ?W] =>
        destruct (saveSession_spec env W s Hs Hwf)
          as (w1 & F' & Hrun & He & Hv & Hmg & Hcr & Hwr & Hsv);
          rewrite Hrun
    end.
    simpl in *. fold endedAt in Hsv.
    eexists. split; [reflexivity|]. simpl. rewrite He. simpl.
    split; [tauto|]. split.
    + intros _. split; [reflexivity|]. exists F'. split; assumption.
    + lia.
  - assert (Hexp : ¬ HeartbeatTTL_ms < now - lastHeartbeat (engine w)).
    { intros H. apply Hg in H. congruence. }
    eexists. split; [reflexivity|]. simpl. rewrite Hs.
    split; [split; [discriminate | tauto]|]. split; [tauto|].
    intros _. destruct w as [[] ? ? ? ? ?]; simpl in *. subst. auto.
Qed.

Lemma CheckHeartbeat_closes_iff_expired_witness :
  reachable boundary_env boundary_world ∧
  session (engine boundary_world) = Some one_file_session ∧
  Int64.in_range (lastHeartbeat (engine boundary_world) + HeartbeatTTL_ms) ∧
  clock_at boundary_env (clock_reads boundary_world)
    - lastHeartbeat (engine boundary_world) = HeartbeatTTL_ms ∧
  ∃ w', CheckHeartbeat boundary_env boundary_world = (w', Ret tt) ∧
        session (engine w') = Some one_file_session ∧
        saves w' = [].
Proof.
  assert (Hreach : reachable boundary_env boundary_world)
    by apply run_reachable, reachable_initial.
  assert (Hr : Int64.in_range (lastHeartbeat (engine boundary_world) + HeartbeatTTL_ms)).
  { vm_compute. split; discriminate. }
  split; [exact Hreach|]. split; [reflexivity|].
  split; [exact Hr|]. split; [reflexivity|].
  destruct (CheckHeartbeat_closes_iff_expired boundary_env boundary_world
              one_file_session Hreach eq_refl Hr)
    as (w' & Hrun & _ & _ & Hstay).
  exists w'. split; [exact Hrun|].
  destruct Hstay as (He & _ & Hsv); [vm_compute; discriminate|].
  rewrite He, Hsv. split; reflexivity.
Defined.

(** ** The two clocks of a session *)

Lemma OpenFile_idle env event w md :
  mutex (engine w) = false ->
  session (engine w) = None ->
  metadata_of env (EventPath event) = Some md ->
  OpenFile env event w =
    (mkWorld
       (mkApp false (Id event) (clock_at env (clock_reads w))
          (Some (Session.mk (wall_at env (wall_reads w)) 0 0
                   (EventOS event) (EventEditor event)
                   (Some (length (heap w))) [] ∅)))
       (heap w ++ [File.mk (Filename md) (RepositoryName md) (MetaFiletype md)
                     (EventPath event) (clock_at env (S (clock_reads w))) 0 0])
       (S (S (clock_reads w))) (S (wall_reads w)) (saves w) (unguarded w),
     Ret (Some "Successfully updated the current file."%string, None)).
Proof.
  intros Hm Hs Hmd.
  unfold OpenFile, createSession, updateCurrentFile, archiveCurrentFile. mrun.
  rewrite !orb_false_r. reflexivity.
Qed.

(** C10: [createSession] takes [StartedAt] from the wall clock and
    [saveSession] takes [EndedAt] from the injected clock.  For a session
    opened by OpenFile on an idle engine and ended by the same client, the
    session handed to [storage.Save] has the wall clock reading as
    [StartedAt], the third reading of the injected clock as [EndedAt] and
    their int64 difference as [DurationMs]; whenever that clock reading is
    earlier than the wall clock reading, [EndedAt < StartedAt] and (the
    difference fitting in an int64) [DurationMs] is negative. *)
Theorem session_ends_before_it_starts env event w md :
  mutex (engine w) = false ->
  session (engine w) = None ->
  metadata_of env (EventPath event) = Some md ->
  let startedAt := wall_at env (wall_reads w) in
  let endedAt := clock_at env (S (S (clock_reads w))) in
  ∃ w1 w2 c,
    OpenFile env event w
      = (w1, Ret (Some "Successfully updated the current file."%string, None)) ∧
    EndSession env event w1
      = (w2, Ret (Some "The session was ended successfully."%string, None)) ∧
    saves w2 = saves w ++ [c] ∧
    Session.StartedAt (saved_session c) = startedAt ∧
    Session.EndedAt (saved_session c) = endedAt ∧
    Session.DurationMs (saved_session c) = Int64.sub endedAt startedAt ∧
    (endedAt < startedAt ->
       Session.EndedAt (saved_session c) < Session.StartedAt (saved_session c) ∧
       (Int64.in_range (endedAt - startedAt) ->
        Session.DurationMs (saved_session c) < 0)).
Proof.
  intros Hm Hs Hmd startedAt endedAt.
  rewrite (OpenFile_idle env event w md Hm Hs Hmd).
  match goal with |- context [(?W, Ret (Some _, None)) = _] => set (w1 := W) end.
  assert (HE : ∃ w2 F',
             EndSession env event w1
               = (w2, Ret (Some "The session was ended successfully."%string, None)) ∧
             saves w2 = saves w ++
               [mkSaveCall
                  (closed_session
                     (Session.mk startedAt 0 0 (EventOS event) (EventEditor event)
                        (Some (length (heap w))) [] ∅) endedAt F')
                  (heap w2) (save_fails_at env (length (saves w)))]).
  { unfold EndSession. subst w1. mrun.
    rewrite String.eqb_refl. simpl. rewrite !andb_false_r. msimpl.
    match goal with
    | |- context [saveSession env ?W] =>
        destruct (saveSession_spec env W _ eq_refl)
          as (w2 & F' & Hrun & He & Hv & Hmg & Hcr & Hwr & Hsv);
          [|rewrite Hrun]
    end.
    { repeat split; simpl; [|constructor].
      intros p [= <-]. rewrite list_lookup_middle by reflexivity. eauto. }
    simpl in Hsv. fold startedAt endedAt in Hsv.
    eexists _, F'. split; [reflexivity|]. simpl. exact Hsv. }
  destruct HE as (w2 & F' & Hend & Hsv).
  eexists w1, w2, _. split; [reflexivity|]. split; [exact Hend|].
  split; [exact Hsv|]. simpl.
  split; [reflexivity|]. split; [reflexivity|]. split; [reflexivity|].
  intros Hlt. split; [exact Hlt|]. intros Hr.
  unfold Int64.sub. rewrite Int64_wrap_id by exact Hr. lia.
Qed.

Lemma session_ends_before_it_starts_witness :
  mutex (engine initial) = false ∧
  session (engine initial) = None ∧
  metadata_of skewed_env (EventPath (example_event "A1" "/repo/a.go"))
    = Some (mkFileMetadata "/repo/a.go" "repo" "go") ∧
  ∃ w1 w2 c,
    OpenFile skewed_env (example_event "A1" "/repo/a.go") initial
      = (w1, Ret (Some "Successfully updated the current file."%string, None)) ∧
    EndSession skewed_env (example_event "A1" "/repo/a.go") w1
      = (w2, Ret (Some "The session was ended successfully."%string, None)) ∧
    saves w2 = [c] ∧
    Session.StartedAt (saved_session c) = 5000 ∧
    Session.EndedAt (saved_session c) = 1000 ∧
    Session.DurationMs (saved_session c) < 0.
Proof.
  split; [reflexivity|]. split; [reflexivity|]. split; [reflexivity|].
  destruct (session_ends_before_it_starts skewed_env
              (example_event "A1" "/repo/a.go") initial
              (mkFileMetadata "/repo/a.go" "repo" "go") eq_refl eq_refl eq_refl)
    as (w1 & w2 & c & Hopen & Hend & Hsv & Hst & Hen & _ & Hneg).
  exists w1, w2, c. split; [exact Hopen|]. split; [exact Hend|].
  split; [exact Hsv|]. split; [exact Hst|]. split; [exact Hen|].
  apply Hneg; [reflexivity|]. vm_compute. split; discriminate.
Defined.

(** ** The mutex *)

(** The four remote procedures take the mutex first and release it last:
    none of their accesses to the engine is unguarded. *)
Lemma rpc_handlers_hold_the_mutex env event w :
  mutex (engine w) = false ->
  unguarded (fst (FocusGained env event w)) = unguarded w ∧
  unguarded (fst (OpenFile env event w)) = unguarded w ∧
  unguarded (fst (SendHeartbeat env event w)) = unguarded w ∧
  unguarded (fst (EndSession env event w)) = unguarded w.
Proof.
  intros Hm. repeat split;
    unfold FocusGained, OpenFile, SendHeartbeat, EndSession;
    (apply locked_handler_guarded; [guarded_tac | exact Hm]).
Qed.

(** [CheckHeartbeat] reads [app.session] before it takes the mutex. *)
Lemma CheckHeartbeat_reads_without_the_mutex env w :
  mutex (engine w) = false ->
  unguarded (fst (CheckHeartbeat env w)) = true.
Proof.
  intros Hm. unfold CheckHeartbeat, heartbeat_expired. msimpl. rewrite Hm. simpl.
  rewrite orb_true_r.
  destruct (session (engine w)); msimpl; [|reflexivity].
  destruct (_ <? _); [|reflexivity].
  unfold close_expired.
  match goal with
  | |- context [(mutex_Lock;; defer mutex_Unlock (saveSession env)) ?W] =>
      rewrite (locked_handler_guarded (saveSession env) W
                 (guarded_saveSession env) Hm)
  end.
  reflexivity.
Qed.

(** C9 fails for [CheckHeartbeat]: its guard runs outside the mutex.  In
    the world [stale_world] the guard finds the session expired; a
    SendHeartbeat served before [CheckHeartbeat] gets the mutex records a
    heartbeat at 600004; [CheckHeartbeat] then closes and saves the session
    at 600005, one millisecond after that heartbeat.  Served one after the
    other, in either order, the two operations leave a session in flight. *)
Theorem CheckHeartbeat_interleaves_with_SendHeartbeat :
  unguarded (fst (CheckHeartbeat stale_env stale_world)) = true ∧
  (let w := fst (CheckHeartbeat_interleaved stale_env
                   (SendHeartbeat stale_env (example_event "A1" "/repo/a.go"))
                   stale_world) in
   session (engine w) = None ∧
   lastHeartbeat (engine w) = 600004 ∧
   map (λ c, Session.EndedAt (saved_session c)) (saves w) = [600005]) ∧
  (let w := run stale_env
              [ReqSendHeartbeat (example_event "A1" "/repo/a.go");
               ReqCheckHeartbeat] stale_world in
   session (engine w) ≠ None ∧ saves w = []) ∧
  (let w := run stale_env
              [ReqCheckHeartbeat;
               ReqSendHeartbeat (example_event "A1" "/repo/a.go")] stale_world in
   session (engine w) ≠ None).
Proof.
  split; [apply CheckHeartbeat_reads_without_the_mutex; reflexivity|].
  split; [vm_compute; auto|].
  split; vm_compute; [split; [discriminate | reflexivity] | discriminate].
Qed.

(** ** Day aggregation *)

Lemma foldl_permutation {A B} (f : A -> B -> A) :
  (∀ a x y, f (f a x) y = f (f a y) x) ->
  ∀ l1 l2, l1 ≡ₚ l2 -> ∀ a, foldl f a l1 = foldl f a l2.
Proof.
  intros Hf l1 l2 Hp. induction Hp as [|x l1 l2 _ IH|x y l|l1 l2 l3 _ IH1 _ IH2];
    intros a; simpl.
  - reflexivity.
  - apply IH.
  - rewrite Hf. reflexivity.
  - rewrite IH1. apply IH2.
Qed.

Lemma Int64_add_swap a x y :
  Int64.add (Int64.add a x) y = Int64.add (Int64.add a y) x.
Proof.
  unfold Int64.add. rewrite !Int64_wrap_add_l. f_equal. lia.
Qed.

Lemma add_file_swap m f g : add_file (add_file m f) g = add_file (add_file m g) f.
Proof.
  unfold add_file. apply map_eq. intros k.
  destruct (decide (File.Repository f = File.Repository g)) as [Heq|Hne].
  - rewrite Heq, !lookup_insert_eq. simpl.
    destruct (decide (File.Repository g = k)) as [->|Hk].
    + rewrite !lookup_insert_eq. f_equal. apply Int64_add_swap.
    + rewrite !lookup_insert_ne by exact Hk. reflexivity.
  - rewrite (lookup_insert_ne _ (File.Repository f) (File.Repository g)) by exact Hne.
    rewrite (lookup_insert_ne _ (File.Repository g) (File.Repository f)) by auto.
    destruct (decide (File.Repository g = k)) as [<-|Hk].
    + rewrite lookup_insert_eq, lookup_insert_ne, lookup_insert_eq by auto.
      reflexivity.
    + rewrite (lookup_insert_ne _ (File.Repository g) k) by exact Hk.
      destruct (decide (File.Repository f = k)) as [<-|Hk'].
      * rewrite !lookup_insert_eq. reflexivity.
      * rewrite !lookup_insert_ne by assumption. reflexivity.
Qed.

Lemma sessionRepositories_permutation l1 l2 :
  l1 ≡ₚ l2 -> sessionRepositories l1 = sessionRepositories l2.
Proof.
  intros Hp. unfold sessionRepositories, files_of.
  apply foldl_permutation; [apply add_file_swap|]. rewrite Hp. reflexivity.
Qed.

Lemma total_time_sum (l : list domain.Session.t) acc :
  foldl (λ totalTime tempSession,
           Int64.add totalTime (domain.Session.DurationMs tempSession))
        (Int64.wrap acc) l
  = Int64.wrap (acc + Zsum (domain.Session.DurationMs <$> l)).
Proof.
  revert acc. induction l as [|s l IH]; intros acc; csimpl.
  - f_equal. lia.
  - change (Int64.add (Int64.wrap acc) (domain.Session.DurationMs s))
      with (Int64.wrap (Int64.wrap acc + domain.Session.DurationMs s)).
    rewrite Int64_wrap_add_l, IH. f_equal. simpl. lia.
Qed.

Lemma aggregate_bucket_permutation format_date date l1 l2 :
  l1 ≡ₚ l2 ->
  aggregate_bucket format_date date l1 = aggregate_bucket format_date date l2.
Proof.
  intros Hp. unfold aggregate_bucket. f_equal.
  - apply foldl_permutation; [|exact Hp]. intros. apply Int64_add_swap.
  - apply sessionRepositories_permutation, Hp.
Qed.

(** The bucket of a day holds the sessions started on that day, in the
    order of the input; days without a session have no bucket. *)
Lemma groupByDay_lookup sessions date :
  groupByDay sessions !! date =
    match started_on date sessions with
    | [] => None
    | b => Some b
    end.
Proof.
  unfold groupByDay, started_on.
  induction sessions as [|s l IH] using rev_ind.
  - simpl. apply lookup_empty.
  - rewrite foldl_snoc, filter_app. cbv zeta.
    destruct (decide (truncate_Day (domain.Session.StartedAt s) = date)) as [<-|Hne].
    + rewrite lookup_insert_eq, IH.
      rewrite filter_cons_True, filter_nil by reflexivity.
      destruct (filter _ l); reflexivity.
    + rewrite lookup_insert_ne by exact Hne. rewrite IH.
      rewrite filter_cons_False, filter_nil, app_nil_r by exact Hne.
      reflexivity.
Qed.

Lemma elem_of_groupByDay sessions date b :
  (date, b) ∈ map_to_list (groupByDay sessions) <->
  b = started_on date sessions ∧ b ≠ [].
Proof.
  rewrite elem_of_map_to_list, groupByDay_lookup.
  destruct (started_on date sessions) as [|s l]; split.
  - discriminate.
  - intros [-> H]. congruence.
  - intros [= <-]. split; [reflexivity | discriminate].
  - intros [-> _]. reflexivity.
Qed.

Lemma truncate_Day_midnight ms : truncate_Day ms mod day_ms = 0.
Proof.
  unfold truncate_Day. rewrite Zminus_mod_idemp_r, Z.sub_diag. reflexivity.
Qed.

Lemma truncate_Day_bounds ms :
  truncate_Day ms <= ms < truncate_Day ms + day_ms.
Proof.
  unfold truncate_Day.
  pose proof (Z.mod_pos_bound ms day_ms ltac:(reflexivity)). lia.
Qed.

Lemma Aggregate_in_dates format_date entries :
  domain.AggregatedSession.Date <$> Aggregate_in format_date entries = entries.*1.
Proof.
  unfold Aggregate_in. rewrite <- list_fmap_compose.
  apply list_fmap_ext. intros i [d b] _. reflexivity.
Qed.

Lemma elem_of_Aggregate_result format_date sessions out a :
  Aggregate_result format_date sessions out ->
  a ∈ out <->
  ∃ date, a = aggregate_bucket format_date date (started_on date sessions) ∧
          started_on date sessions ≠ [].
Proof.
  intros (entries & Hp & ->). unfold Aggregate_in. rewrite list_elem_of_fmap.
  split.
  - intros ([d b] & -> & Hin). rewrite Hp in Hin.
    apply elem_of_groupByDay in Hin as [-> Hne]. exists d. auto.
  - intros (d & -> & Hne). exists (d, started_on d sessions).
    split; [reflexivity|]. rewrite Hp. apply elem_of_groupByDay. auto.
Qed.

Lemma Aggregate_one_entry_per_day format_date sessions out :
  Aggregate_result format_date sessions out ->
  NoDup (domain.AggregatedSession.Date <$> out).
Proof.
  intros (entries & Hp & ->). rewrite Aggregate_in_dates, Hp.
  apply NoDup_fst_map_to_list.
Qed.

(** C7: whatever the order in which Go ranges over the map of buckets, the
    output of [Aggregate] has exactly one entry per day on which a session
    started; the entry of a day is made of the sessions whose [StartedAt]
    truncates to it (here: [truncate_Day], midnight UTC), so that a session
    counts in the bucket of its start day and in no other; and
    [TotalTimeMs] is the int64 sum of the [DurationMs] of these sessions,
    whole (their exact sum when it fits in an int64). *)
Theorem Aggregate_buckets_by_start_day format_date sessions out :
  Aggregate_result format_date sessions out ->
  NoDup (domain.AggregatedSession.Date <$> out) ∧
  (∀ s, s ∈ sessions ->
        ∃ a, a ∈ out ∧
             domain.AggregatedSession.Date a
               = truncate_Day (domain.Session.StartedAt s)) ∧
  (∀ a, a ∈ out ->
        let date := domain.AggregatedSession.Date a in
        let bucket := started_on date sessions in
        bucket ≠ [] ∧
        domain.AggregatedSession.Period a = domain.Day ∧
        date mod day_ms = 0 ∧
        (∀ s, s ∈ sessions ->
              s ∈ bucket <->
              date <= domain.Session.StartedAt s < date + day_ms) ∧
        domain.AggregatedSession.TotalTimeMs a
          = Int64.wrap (Zsum (domain.Session.DurationMs <$> bucket)) ∧
        (Int64.in_range (Zsum (domain.Session.DurationMs <$> bucket)) ->
         domain.AggregatedSession.TotalTimeMs a
           = Zsum (domain.Session.DurationMs <$> bucket))).
Proof.
  intros Hres. split; [|split].
  - exact (Aggregate_one_entry_per_day format_date sessions out Hres).
  - intros s Hs.
    exists (aggregate_bucket format_date
              (truncate_Day (domain.Session.StartedAt s))
              (started_on (truncate_Day (domain.Session.StartedAt s)) sessions)).
    split; [|reflexivity].
    apply (elem_of_Aggregate_result _ _ _ _ Hres). eexists. split; [reflexivity|].
    intros Hnil. eapply filter_nil_not_elem_of; [exact Hnil | | exact Hs].
    reflexivity.
  - intros a Ha. apply (elem_of_Aggregate_result _ _ _ _ Hres) in Ha
      as (d & -> & Hne). simpl.
    assert (Hmid : d mod day_ms = 0).
    { destruct (started_on d sessions) as [|s b] eqn:Hb; [congruence|].
      assert (Hs : s ∈ started_on d sessions) by (rewrite Hb; left).
      apply list_elem_of_filter in Hs as [<- _]. apply truncate_Day_midnight. }
    assert (Hsum :
      foldl (λ totalTime tempSession,
               Int64.add totalTime (domain.Session.DurationMs tempSession))
            0 (started_on d sessions)
      = Int64.wrap (Zsum (domain.Session.DurationMs <$> started_on d sessions))).
    { change 0 with (Int64.wrap 0) at 1. rewrite total_time_sum. f_equal. }
    split; [exact Hne|]. split; [reflexivity|]. split; [exact Hmid|].
    split; [|split].
    + intros s Hs. unfold started_on. rewrite list_elem_of_filter.
      pose proof (truncate_Day_bounds (domain.Session.StartedAt s)) as Hb.
      pose proof (truncate_Day_midnight (domain.Session.StartedAt s)) as Hm.
      split.
      * intros [<- _]. exact Hb.
      * intros Hr. split; [|exact Hs].
        assert (Hpos : 0 < day_ms) by reflexivity.
        apply Z.mod_divide in Hmid as [k Hk]; [|lia].
        apply Z.mod_divide in Hm as [j Hj]; [|lia].
        rewrite Hj in *. rewrite Hk in *. f_equal. nia.
    + exact Hsum.
    + intros Hr. rewrite Hsum. apply Int64_wrap_id, Hr.
Qed.

Lemma Aggregate_buckets_by_start_day_witness :
  Aggregate_result example_format example_sessions
    (Aggregate example_format example_sessions) ∧
  (domain.AggregatedSession.Date <$> Aggregate example_format example_sessions
     ≡ₚ [0; day_ms]) ∧
  ∀ a, a ∈ Aggregate example_format example_sessions ->
       domain.AggregatedSession.Date a = 0 ->
       domain.AggregatedSession.TotalTimeMs a = 40.
Proof.
  assert (Hres : Aggregate_result example_format example_sessions
                   (Aggregate example_format example_sessions)).
  { eexists. split; reflexivity. }
  split; [exact Hres|]. split.
  { vm_compute. apply perm_swap. }
  intros a Ha Hd.
  destruct (Aggregate_buckets_by_start_day example_format example_sessions
              _ Hres) as (_ & _ & Hall).
  destruct (Hall a Ha) as (_ & _ & _ & _ & _ & Hexact).
  rewrite Hd in Hexact. apply Hexact. vm_compute. split; discriminate.
Defined.

Lemma started_on_permutation date l1 l2 :
  l1 ≡ₚ l2 -> started_on date l1 ≡ₚ started_on date l2.
Proof. intros Hp. unfold started_on. rewrite Hp. reflexivity. Qed.

(** Two outputs with the same elements and one entry per bucket are
    permutations of each other and the same mapping keyed by bucket. *)
Lemma same_buckets (out out' : list domain.AggregatedSession.t) :
  NoDup (domain.AggregatedSession.Date <$> out) ->
  NoDup (domain.AggregatedSession.Date <$> out') ->
  (∀ a, a ∈ out <-> a ∈ out') ->
  out ≡ₚ out' ∧ by_bucket out = by_bucket out'.
Proof.
  intros Hnd Hnd' Hel.
  assert (Hp : out ≡ₚ out').
  { apply NoDup_Permutation; [| |exact Hel].
    - eapply NoDup_fmap_1. exact Hnd.
    - eapply NoDup_fmap_1. exact Hnd'. }
  split; [exact Hp|]. unfold by_bucket. apply list_to_map_proper.
  - rewrite <- list_fmap_compose. exact Hnd.
  - rewrite Hp. reflexivity.
Qed.

(** C8: the outputs of [Aggregate] on a list of sessions and on any
    permutation of it, for whatever orders Go ranges over the two maps of
    buckets, are permutations of each other and are the same mapping from
    bucket to aggregated session. *)
Theorem Aggregate_order_independent format_date sessions sessions' out out' :
  sessions ≡ₚ sessions' ->
  Aggregate_result format_date sessions out ->
  Aggregate_result format_date sessions' out' ->
  out ≡ₚ out' ∧ by_bucket out = by_bucket out'.
Proof.
  intros Hp Hres Hres'.
  pose proof (Aggregate_one_entry_per_day format_date sessions out Hres) as Hnd.
  pose proof (Aggregate_one_entry_per_day format_date sessions' out' Hres') as Hnd'.
  apply same_buckets; [exact Hnd | exact Hnd' |].
  intros a.
  rewrite (elem_of_Aggregate_result _ _ _ _ Hres),
          (elem_of_Aggregate_result _ _ _ _ Hres').
  pose proof (λ d, started_on_permutation d _ _ Hp) as Hd.
  split; intros (d & -> & Hne); exists d; split.
  - apply aggregate_bucket_permutation, Hd.
  - intros Hnil. specialize (Hd d). rewrite Hnil in Hd.
    apply Permutation_nil_r in Hd. auto.
  - symmetry. apply aggregate_bucket_permutation, Hd.
  - intros Hnil. specialize (Hd d). rewrite Hnil in Hd.
    apply Permutation_nil_l in Hd. auto.
Qed.

Lemma Aggregate_order_independent_witness :
  example_sessions ≡ₚ example_sessions_permuted ∧
  Aggregate_result example_format example_sessions
    (Aggregate example_format example_sessions) ∧
  Aggregate_result example_format example_sessions_permuted
    (Aggregate example_format example_sessions_permuted) ∧
  Aggregate example_format example_sessions
    ≡ₚ Aggregate example_format example_sessions_permuted ∧
  by_bucket (Aggregate example_format example_sessions)
    = by_bucket (Aggregate example_format example_sessions_permuted).
Proof.
  assert (Hp : example_sessions ≡ₚ example_sessions_permuted).
  { unfold example_sessions, example_sessions_permuted.
    apply (Permutation_cons_append [_; _]). }
  assert (Hres : Aggregate_result example_format example_sessions
                   (Aggregate example_format example_sessions))
    by (eexists; split; reflexivity).
  assert (Hres' : Aggregate_result example_format example_sessions_permuted
                    (Aggregate example_format example_sessions_permuted))
    by (eexists; split; reflexivity).
  split; [exact Hp|]. split; [exact Hres|]. split; [exact Hres'|].
  exact (Aggregate_order_independent example_format _ _ _ _ Hp Hres Hres').
Defined.

(** * Further properties of the engine *)

(** ** Opening files *)

Lemma close_current_length closedAt cur (h : list File.t) :
  length (close_current closedAt cur h) = length h.
Proof.
  unfold close_current. destruct cur as [p|]; [|reflexivity].
  destruct (h !! p); [apply length_insert | reflexivity].
Qed.

Lemma updateCurrentFile_resolved env path w s md :
  session (engine w) = Some s ->
  session_wf (heap w) s ->
  metadata_of env path = Some md ->
  ∃ w',
    updateCurrentFile env path w = (w', Ret tt) ∧
    session (engine w') =
      Some (Session.with_CurrentFile (Some (length (heap w)))
              (Session.with_OpenFiles (archived s) s)) ∧
    heap w' =
      close_current (clock_at env (clock_reads w)) (Session.CurrentFile s) (heap w)
      ++ [opened_file md path (clock_at env (clock_reads w))] ∧
    mutex (engine w') = mutex (engine w) ∧
    activeClientId (engine w') = activeClientId (engine w) ∧
    lastHeartbeat (engine w') = lastHeartbeat (engine w) ∧
    clock_reads w' = S (clock_reads w) ∧
    wall_reads w' = wall_reads w ∧
    saves w' = saves w.
Proof.
  intros Hs (Hcur & Hopen & Hfiles) Hmd. unfold updateCurrentFile. mrun.
  match goal with
  | |- context [archiveCurrentFile ?c ?W] =>
      destruct (archiveCurrentFile_spec c W s Hs Hcur)
        as (w1 & Hrun1 & Hs1 & Hh1 & Hfr1); rewrite Hrun1
  end.
  destruct Hfr1 as (Hmx1 & Hid1 & Hlh1 & Hcr1 & Hwr1 & Hsv1). simpl in *.
  mrun. eexists. split; [reflexivity|]. simpl.
  rewrite Hh1, close_current_length. auto 10.
Qed.

Lemma updateCurrentFile_unresolved env path w :
  metadata_of env path = None ->
  updateCurrentFile env path w =
    (mkWorld (engine w) (heap w) (S (clock_reads w)) (wall_reads w)
             (saves w) (unguarded w), Ret tt).
Proof. intros Hmd. unfold updateCurrentFile. mrun. reflexivity. Qed.

(** ** Spans of the files of a session *)

Lemma spans_view (h h' : list File.t) l :
  view <$> h' = view <$> h -> spans h' l = spans h l.
Proof.
  intros Hv. unfold spans. apply list_omap_ext, Forall2_same_length_lookup.
  split; [reflexivity|]. intros i p q Hp Hq. rewrite Hp in Hq.
  injection Hq as <-. pose proof (view_lookup _ _ p Hv) as Hl.
  destruct (h' !! p) as [f'|], (h !! p) as [f|]; simpl in *; try discriminate;
    [|reflexivity].
  injection Hl as _ Ho Hc. rewrite Ho, Hc. reflexivity.
Qed.

Lemma spans_app (h : list File.t) l1 l2 :
  spans h (l1 ++ l2) = spans h l1 ++ spans h l2.
Proof. unfold spans. apply omap_app. Qed.

Lemma spans_ext (h h' : list File.t) l :
  (∀ p, p ∈ l -> h' !! p = h !! p) -> spans h' l = spans h l.
Proof.
  intros Hext. unfold spans. apply list_omap_ext, Forall2_same_length_lookup.
  split; [reflexivity|]. intros i p q Hp Hq. rewrite Hp in Hq.
  injection Hq as <-. rewrite Hext; [reflexivity|].
  apply list_elem_of_lookup. eauto.
Qed.

Lemma spans_length (h : list File.t) l :
  Forall (λ p, is_Some (h !! p)) l -> length (spans h l) = length l.
Proof.
  unfold spans. induction 1 as [|p l [f Hf] _ IH]; csimpl; [reflexivity|].
  rewrite Hf. simpl. rewrite IH. reflexivity.
Qed.

Lemma tiled_snoc sp a b : tiled sp a -> tiled (sp ++ [(a, b)]) b.
Proof.
  induction sp as [|[o c] rest IH]; simpl.
  - auto.
  - intros [Hc Hrest]. split; [|auto].
    destruct rest as [|[o' c'] rest']; simpl; assumption.
Qed.

(** The sum of the durations of tiling spans telescopes. *)
Lemma tiled_sum sp stop o c :
  tiled ((o, c) :: sp) stop ->
  Zsum ((λ oc, oc.2 - oc.1) <$> (o, c) :: sp) = stop - o.
Proof.
  revert o c. induction sp as [|[o' c'] sp IH]; intros o c; csimpl.
  - intros [-> _]. lia.
  - intros [-> Hrest]. specialize (IH o' c' Hrest). csimpl in IH. lia.
Qed.

Lemma archived_live h s p :
  session_wf h s -> p ∈ archived s -> is_Some (h !! p).
Proof.
  intros (Hcur & Hopen & _) Hp. unfold archived in Hp.
  apply elem_of_app in Hp as [Hp|Hp].
  - rewrite Forall_forall in Hopen. auto.
  - destruct (Session.CurrentFile s) as [q|]; simpl in Hp.
    + apply list_elem_of_singleton in Hp as ->. auto.
    + apply not_elem_of_nil in Hp. contradiction.
Qed.

Lemma session_tidy_later env n n' h s :
  (n <= n')%nat -> session_tidy env n h s -> session_tidy env n' h s.
Proof.
  intros Hle (Hnd & Hcl & Hcur). split; [exact Hnd|]. split; [exact Hcl|].
  destruct (Session.CurrentFile s); [|exact Hcur].
  destruct Hcur as (f & m & Hf & Hc & Hm & Ho & Ht).
  exists f, m. repeat split; auto. lia.
Qed.

(** Archiving the current file at the reading [n] of the clock leaves the
    archived files tiling the time up to that reading. *)
Lemma archive_tiled env n h s :
  session_wf h s ->
  session_tidy env n h s ->
  let t := clock_at env n in
  tiled (spans (close_current t (Session.CurrentFile s) h) (archived s)) t ∧
  Forall (clocked env)
         (spans (close_current t (Session.CurrentFile s) h) (archived s)) ∧
  length (spans (close_current t (Session.CurrentFile s) h) (archived s))
    = length (archived s).
Proof.
  intros Hwf (Hnd & Hcl & Hcur) t.
  assert (Hsp : spans (close_current t (Session.CurrentFile s) h) (archived s)
                = spans h (Session.OpenFiles s)
                  ++ match Session.CurrentFile s with
                     | Some c =>
                         match h !! c with
                         | Some f => [(File.OpenedAt f, t)]
                         | None => []
                         end
                     | None => []
                     end).
  { unfold archived, close_current in *.
    destruct (Session.CurrentFile s) as [c|]; simpl.
    - destruct Hcur as (f & m & Hf & _). rewrite Hf.
      apply NoDup_app in Hnd as (_ & Hnotin & _).
      rewrite spans_app. f_equal.
      + apply spans_ext. intros p Hp. apply list_lookup_insert_ne. intros <-.
        apply (Hnotin c Hp). left.
      + unfold spans. csimpl.
        rewrite list_lookup_insert_eq by (eapply lookup_lt_Some; exact Hf).
        reflexivity.
    - rewrite !app_nil_r. reflexivity. }
  split; [|split].
  - rewrite Hsp. destruct (Session.CurrentFile s) as [c|].
    + destruct Hcur as (f & m & Hf & _ & _ & _ & Ht). rewrite Hf.
      apply tiled_snoc. exact Ht.
    + rewrite Hcur. simpl. exact I.
  - rewrite Hsp. apply Forall_app. split; [exact Hcl|].
    destruct (Session.CurrentFile s) as [c|]; [|constructor].
    destruct Hcur as (f & m & Hf & _ & Hm & Ho & _). rewrite Hf.
    constructor; [|constructor]. exists m, n. split; [exact Hm|].
    rewrite Ho. reflexivity.
  - apply spans_length, Forall_forall. intros p Hp.
    apply close_current_lookup. exact (archived_live h s p Hwf Hp).
Qed.

Lemma session_tidy_fresh env n h startedAt os editor :
  session_tidy env n h (Session.mk startedAt 0 0 os editor None [] ∅).
Proof. split; [constructor|]. split; [constructor | reflexivity]. Qed.

(** [updateCurrentFile] keeps a session in flight well formed and tidy. *)
Lemma updateCurrentFile_tidy env path w s :
  session (engine w) = Some s ->
  session_wf (heap w) s ->
  session_tidy env (clock_reads w) (heap w) s ->
  ∃ w' s',
    updateCurrentFile env path w = (w', Ret tt) ∧
    session (engine w') = Some s' ∧
    session_wf (heap w') s' ∧
    session_tidy env (clock_reads w') (heap w') s' ∧
    mutex (engine w') = mutex (engine w) ∧
    activeClientId (engine w') = activeClientId (engine w) ∧
    lastHeartbeat (engine w') = lastHeartbeat (engine w) ∧
    clock_reads w' = S (clock_reads w) ∧
    saves w' = saves w.
Proof.
  intros Hs Hwf Htidy.
  destruct (updateCurrentFile_spec env path w s Hs Hwf)
    as (w' & s' & Hrun & Hs' & Hwf' & _ & Hmx & Hid & Hlh & Hcr & _ & Hsv).
  exists w', s'. split; [exact Hrun|]. split; [exact Hs'|].
  split; [exact Hwf'|]. split; [|auto 10].
  destruct (metadata_of env path) as [md|] eqn:Hmd.
  - destruct (updateCurrentFile_resolved env path w s md Hs Hwf Hmd)
      as (w2 & Hrun2 & Hs2 & Hh2 & _).
    rewrite Hrun in Hrun2. injection Hrun2 as <-.
    rewrite Hs' in Hs2. injection Hs2 as ->. rewrite Hh2, Hcr.
    destruct (archive_tiled env (clock_reads w) (heap w) s Hwf Htidy)
      as (Ht & Hcl & _).
    destruct Htidy as [Hnd _].
    assert (Hlt : ∀ p, p ∈ archived s -> (p < length (heap w))%nat).
    { intros p Hp. apply lookup_lt_is_Some. exact (archived_live _ s p Hwf Hp). }
    assert (Hsp : spans (close_current (clock_at env (clock_reads w))
                           (Session.CurrentFile s) (heap w)
                         ++ [opened_file md path (clock_at env (clock_reads w))])
                        (archived s)
                  = spans (close_current (clock_at env (clock_reads w))
                             (Session.CurrentFile s) (heap w)) (archived s)).
    { apply spans_ext. intros p Hp. apply lookup_app_l.
      rewrite close_current_length. auto. }
    split; [|split].
    + unfold archived at 1. simpl. fold (archived s).
      apply NoDup_app. split; [exact Hnd|]. split; [|apply NoDup_singleton].
      intros p Hp Hin. apply list_elem_of_singleton in Hin as ->.
      specialize (Hlt _ Hp). lia.
    + simpl. rewrite Hsp. exact Hcl.
    + simpl. eexists _, (clock_reads w). split.
      { apply list_lookup_middle. rewrite close_current_length. reflexivity. }
      split; [reflexivity|]. split; [lia|]. split; [reflexivity|].
      simpl. rewrite Hsp. exact Ht.
  - rewrite (updateCurrentFile_unresolved env path w Hmd) in Hrun.
    injection Hrun as <-. simpl in *. rewrite Hs in Hs'. injection Hs' as <-.
    eapply session_tidy_later; [|exact Htidy]. lia.
Qed.

(** ** The second invariant *)

Lemma saveSession_sound env w :
  sound env w ->
  ∃ w',
    saveSession env w = (w', Ret tt) ∧
    engine w' = mkApp (mutex (engine w)) EmptyString (lastHeartbeat (engine w)) None ∧
    (clock_reads w <= clock_reads w')%nat ∧
    Forall save_call_merged (saves w') ∧
    Forall (save_call_tiled env) (saves w').
Proof.
  intros [Hc (Hidle & Htidy & Htiled)].
  destruct (saveSession_consistent env w Hc) as (w' & Hrun & He & Hmerged).
  exists w'. split; [exact Hrun|]. split; [exact He|].
  destruct Hc as [Hwf _]. unfold wf_world in Hwf.
  destruct (session (engine w)) as [s|] eqn:Hs.
  - destruct (saveSession_spec env w s Hs Hwf)
      as (w2 & F' & Hrun2 & _ & Hv & _ & Hcr & _ & Hsv).
    rewrite Hrun in Hrun2. injection Hrun2 as <-.
    split; [lia|]. split; [exact Hmerged|]. rewrite Hsv.
    destruct (decide (archived s = [])) as [He0|Hne]; [exact Htiled|].
    apply Forall_app. split; [exact Htiled|]. constructor; [|constructor].
    specialize (Htidy s eq_refl).
    destruct (archive_tiled env (clock_reads w) (heap w) s Hwf Htidy)
      as (Ht & Hcl & Hlen).
    destruct Htidy as (Hnd & _ & Hcur).
    unfold save_call_tiled. simpl. rewrite (spans_view _ _ _ Hv).
    split; [reflexivity|]. split; [exact Hnd|].
    split; [|split; [|split]; assumption].
    unfold archived in *. destruct (Session.CurrentFile s) as [c|].
    + exists c. split; [reflexivity|]. apply last_snoc.
    + rewrite Hcur in Hne. contradiction.
  - destruct (saveSession_nil env w Hs) as (w2 & Hrun2 & _ & _ & Hcr & _ & Hsv).
    rewrite Hrun in Hrun2. injection Hrun2 as <-.
    split; [lia|]. split; [exact Hmerged|]. rewrite Hsv. exact Htiled.
Qed.

(** The invariants only look at the session, the active client, the heap,
    the log of saves and a bound on the readings of the clock. *)
Lemma sound_frame env w w' :
  sound env w ->
  session (engine w') = session (engine w) ->
  activeClientId (engine w') = activeClientId (engine w) ->
  heap w' = heap w ->
  saves w' = saves w ->
  (clock_reads w <= clock_reads w')%nat ->
  sound env w'.
Proof.
  intros [[Hwf Hsv] (Hidle & Htidy & Htl)] Hs Ha Hh Hsaves Hcr.
  unfold sound, consistent, orderly, wf_world.
  rewrite Hs, Ha, Hh, Hsaves. split; [split; assumption|].
  split; [exact Hidle|]. split; [|exact Htl].
  intros s Hs'. eapply session_tidy_later; [exact Hcr | auto].
Qed.

Ltac sound_framed H :=
  apply (sound_frame _ _ _ H); simpl; first [reflexivity | lia].

Ltac step_update_tidy env :=
  match goal with
  | |- context [updateCurrentFile env ?p ?W] =>
      let w' := fresh "w" in
      let s' := fresh "s" in
      let Hrun := fresh "Hrun" in
      let Hs' := fresh "Hs" in
      let Hwf' := fresh "Hwf" in
      let Htidy' := fresh "Htidy" in
      let Hrest := fresh "Hrest" in
      destruct (updateCurrentFile_tidy env p W _ eq_refl
                  (session_wf_fresh _ _ _ _) (session_tidy_fresh _ _ _ _ _ _))
        as (w' & s' & Hrun & Hs' & Hwf' & Htidy' & Hrest);
      rewrite Hrun; simpl in Hrest;
      destruct Hrest as (? & ? & ? & ? & ?)
  end.

(** Closes a goal [sound w'] for a world [w'] whose session is known. *)
Ltac sound_now :=
  unfold sound, consistent, orderly, wf_world; simpl;
  repeat match goal with
         | H : session (engine ?w) = _ |- context [session (engine ?w)] =>
             rewrite H
         | H : saves ?w = _ |- context [saves ?w] => rewrite H
         end;
  (split; [split | split; [|split]]);
  first [ assumption
        | exact I
        | reflexivity
        | intros; discriminate
        | intros ? [= <-]; eapply session_tidy_later; [|eauto]; simpl; lia ].

Lemma FocusGained_sound env event w :
  mutex (engine w) = false ->
  sound env w ->
  ∃ w' r, FocusGained env event w = (w', Ret r) ∧
          sound env w' ∧ mutex (engine w') = false.
Proof.
  intros Hm Hsound. pose proof Hsound as [[Hwf0 Hsv0] (Hidle0 & Htidy0 & Htl0)].
  unfold FocusGained, createSession. mrun.
  destruct (String.eqb (activeClientId (engine w)) (Id event)).
  - msimpl. eexists _, _. split; [reflexivity|].
    split; [sound_framed Hsound | reflexivity].
  - destruct (session (engine w)) as [s|] eqn:Hs; mrun.
    + match goal with
      | |- context [saveSession env ?W] =>
          destruct (saveSession_sound env W)
            as (w1 & Hrun1 & He1 & Hcr1 & Hmg1 & Htl1); [|rewrite Hrun1]
      end.
      { unfold wf_world in Hwf0. rewrite Hs in Hwf0. sound_now. }
      simpl in He1. mrun. rewrite He1. simpl.
      step_update_tidy env. mrun.
      eexists _, _. split; [reflexivity|]. split; [sound_now|]. simpl. congruence.
    + step_update_tidy env. mrun.
      eexists _, _. split; [reflexivity|]. split; [sound_now|]. simpl. congruence.
Qed.

Lemma OpenFile_sound env event w :
  mutex (engine w) = false ->
  sound env w ->
  ∃ w' r, OpenFile env event w = (w', Ret r) ∧
          sound env w' ∧ mutex (engine w') = false.
Proof.
  intros Hm Hsound. pose proof Hsound as [[Hwf0 Hsv0] (Hidle0 & Htidy0 & Htl0)].
  unfold OpenFile, createSession. mrun. unfold wf_world in Hwf0.
  destruct (session (engine w)) as [s|] eqn:Hs; mrun.
  - match goal with
    | |- context [updateCurrentFile env ?p ?W] =>
        destruct (updateCurrentFile_tidy env p W s eq_refl Hwf0
                    (session_tidy_later _ _ _ _ _ (Nat.le_succ_diag_r _)
                       (Htidy0 s eq_refl)))
          as (w1 & s1 & Hrun1 & Hs1 & Hwf1 & Htidy1 & Hrest); rewrite Hrun1
    end.
    simpl in Hrest. destruct Hrest as (? & ? & ? & ? & ?). mrun.
    eexists _, _. split; [reflexivity|]. split; [sound_now|]. simpl. congruence.
  - step_update_tidy env. mrun.
    eexists _, _. split; [reflexivity|]. split; [sound_now|]. simpl. congruence.
Qed.

Lemma SendHeartbeat_sound env event w :
  mutex (engine w) = false ->
  sound env w ->
  ∃ w' r, SendHeartbeat env event w = (w', Ret r) ∧
          sound env w' ∧ mutex (engine w') = false.
Proof.
  intros Hm Hsound. pose proof Hsound as [[Hwf0 Hsv0] (Hidle0 & Htidy0 & Htl0)].
  unfold SendHeartbeat, createSession. mrun. unfold wf_world in Hwf0.
  destruct (session (engine w)) as [s|] eqn:Hs; mrun.
  - eexists _, _. split; [reflexivity|]. split; [sound_now | reflexivity].
  - step_update_tidy env. mrun.
    eexists _, _. split; [reflexivity|]. split; [sound_now|]. simpl. congruence.
Qed.

Lemma EndSession_sound env event w :
  mutex (engine w) = false ->
  sound env w ->
  ∃ w' r, EndSession env event w = (w', r) ∧
          (r = Fatal ∨
           ∃ a, r = Ret a ∧ sound env w' ∧ mutex (engine w') = false).
Proof.
  intros Hm Hsound. unfold EndSession. mrun.
  destruct ((1 <? String.length (activeClientId (engine w)))%nat
            && negb (String.eqb (activeClientId (engine w)) (Id event))).
  - msimpl. eexists _, _. split; [reflexivity|]. left. reflexivity.
  - msimpl.
    destruct (String.eqb (activeClientId (engine w)) EmptyString
              && (if session (engine w) is None then true else false)).
    + msimpl. eexists _, _. split; [reflexivity|]. right.
      eexists. split; [reflexivity|].
      split; [sound_framed Hsound | reflexivity].
    + msimpl.
      match goal with
      | |- context [saveSession env ?W] =>
          destruct (saveSession_sound env W) as (w1 & Hrun1 & He1 & Hcr1 & Hmg1 & Htl1);
            [sound_framed Hsound | rewrite Hrun1]
      end.
      simpl in He1. mrun. eexists _, _. split; [reflexivity|]. right.
      eexists. split; [reflexivity|]. rewrite He1.
      split; [sound_now | reflexivity].
Qed.

Lemma CheckHeartbeat_sound env w :
  mutex (engine w) = false ->
  sound env w ->
  ∃ w', CheckHeartbeat env w = (w', Ret tt) ∧
        sound env w' ∧ mutex (engine w') = false.
Proof.
  intros Hm Hsound. pose proof Hsound as [[Hwf0 Hsv0] (Hidle0 & Htidy0 & Htl0)].
  unfold CheckHeartbeat, heartbeat_expired, close_expired. mrun.
  unfold wf_world in Hwf0.
  destruct (session (engine w)) as [s|] eqn:Hs; mrun.
  - destruct (_ <? _).
    + mrun.
      match goal with
      | |- context [saveSession env ?W] =>
          destruct (saveSession_sound env W) as (w1 & Hrun1 & He1 & Hcr1 & Hmg1 & Htl1);
            [sound_now | rewrite Hrun1]
      end.
      simpl in He1. mrun. eexists. split; [reflexivity|]. rewrite He1.
      split; [sound_now | reflexivity].
    + msimpl. eexists. split; [reflexivity|]. split; [sound_now | exact Hm].
  - eexists. split; [reflexivity|]. split; [sound_now | exact Hm].
Qed.

Lemma serve_sound env r w w' :
  mutex (engine w) = false ->
  sound env w ->
  serve env r w = (w', Ret tt) ->
  sound env w' ∧ mutex (engine w') = false.
Proof.
  intros Hm Hc Hrun. destruct r as [event|event|event|event|]; simpl in Hrun.
  - destruct (FocusGained_sound env event w Hm Hc) as (w1 & a & Heq & H).
    rewrite (bind_Ret _ _ _ _ _ Heq) in Hrun. injection Hrun as <-. exact H.
  - destruct (OpenFile_sound env event w Hm Hc) as (w1 & a & Heq & H).
    rewrite (bind_Ret _ _ _ _ _ Heq) in Hrun. injection Hrun as <-. exact H.
  - destruct (SendHeartbeat_sound env event w Hm Hc) as (w1 & a & Heq & H).
    rewrite (bind_Ret _ _ _ _ _ Heq) in Hrun. injection Hrun as <-. exact H.
  - destruct (EndSession_sound env event w Hm Hc)
      as (w1 & a & Heq & [-> | (b & -> & H)]).
    + unfold mbind, M_bind, bind in Hrun. rewrite Heq in Hrun. discriminate.
    + rewrite (bind_Ret _ _ _ _ _ Heq) in Hrun. injection Hrun as <-. exact H.
  - destruct (CheckHeartbeat_sound env w Hm Hc) as (w1 & Heq & H).
    rewrite Heq in Hrun. injection Hrun as <-. exact H.
Qed.

Lemma reachable_sound env w :
  reachable env w -> sound env w ∧ mutex (engine w) = false.
Proof.
  induction 1 as [|w r w' Hreach [Hc Hm] Hrun].
  - split; [|reflexivity]. split; [split; [exact I | constructor]|].
    split; [reflexivity|]. split; [discriminate | constructor].
  - exact (serve_sound env r w w' Hm Hc Hrun).
Qed.

(** ** What the invariants give *)

(** X3: An EndSession event that reaches an idle engine, whoever sends it, is
    a no-op: the engine has no active client left, so the call neither
    exits nor saves anything, leaves [*reply] alone and returns nil. *)
Theorem EndSession_on_idle_engine env event w :
  reachable env w ->
  session (engine w) = None ->
  activeClientId (engine w) = EmptyString ∧
  ∃ w', EndSession env event w = (w', Ret (None, None)) ∧
        engine w' = engine w ∧ heap w' = heap w ∧ saves w' = saves w ∧
        clock_reads w' = clock_reads w.
Proof.
  intros Hreach Hs.
  destruct (reachable_sound env w Hreach) as [[_ (Hidle & _)] Hm].
  specialize (Hidle Hs). split; [exact Hidle|].
  unfold EndSession. mrun. rewrite Hidle, Hs. msimpl.
  eexists. split; [reflexivity|]. simpl.
  destruct w as [[mx a lh se] h cr wr sv ug]. simpl in *. subst. auto.
Qed.

Lemma EndSession_on_idle_engine_witness :
  reachable idle_again_env idle_again_world ∧
  session (engine idle_again_world) = None ∧
  ∃ w', EndSession idle_again_env (example_event "B7" EmptyString) idle_again_world
          = (w', Ret (None, None)) ∧
        engine w' = engine idle_again_world ∧
        saves w' = saves idle_again_world.
Proof.
  assert (Hreach : reachable idle_again_env idle_again_world)
    by apply run_reachable, reachable_initial.
  split; [exact Hreach|]. split; [reflexivity|].
  destruct (EndSession_on_idle_engine idle_again_env (example_event "B7" EmptyString)
              idle_again_world Hreach eq_refl)
    as (_ & w' & Hrun & He & _ & Hsv & _).
  exists w'. auto.
Defined.

(** X4: While a session is in flight its [Files] map is empty, its file
    pointers are live and distinct, no file is archived before a current
    file exists, the current file is still open ([ClosedAt = 0]), and each
    archived file was closed at the time the next one was opened, the last
    one at the opening of the current file. *)
Theorem session_in_flight_is_tidy env w s :
  reachable env w ->
  session (engine w) = Some s ->
  Session.Files s = ∅ ∧
  NoDup (archived s) ∧
  (∀ p, p ∈ archived s -> is_Some (heap w !! p)) ∧
  match Session.CurrentFile s with
  | None => Session.OpenFiles s = []
  | Some c =>
      ∃ f, heap w !! c = Some f ∧ File.ClosedAt f = 0 ∧
           tiled (spans (heap w) (Session.OpenFiles s)) (File.OpenedAt f)
  end.
Proof.
  intros Hreach Hs.
  destruct (reachable_sound env w Hreach) as [[[Hwf _] (_ & Htidy & _)] _].
  unfold wf_world in Hwf. rewrite Hs in Hwf.
  destruct (Htidy s Hs) as (Hnd & _ & Hcur).
  split; [apply Hwf|]. split; [exact Hnd|].
  split; [intros p; apply archived_live, Hwf|].
  destruct (Session.CurrentFile s); [|exact Hcur].
  destruct Hcur as (f & m & Hf & Hc & _ & _ & Ht). eauto.
Qed.

Lemma session_in_flight_is_tidy_witness :
  reachable reopen_env two_files_world ∧
  session (engine two_files_world) = Some two_files_session ∧
  ∃ f, heap two_files_world !! 1%nat = Some f ∧ File.ClosedAt f = 0 ∧
       File.OpenedAt f = 1000 ∧
       spans (heap two_files_world) [0%nat] = [(0, 1000)].
Proof.
  assert (Hreach : reachable reopen_env two_files_world)
    by apply run_reachable, reachable_initial.
  split; [exact Hreach|]. split; [reflexivity|].
  destruct (session_in_flight_is_tidy reopen_env two_files_world
              two_files_session Hreach eq_refl) as (_ & _ & _ & f & Hf & Hc & _).
  exists f. split; [exact Hf|]. split; [exact Hc|].
  vm_compute in Hf. injection Hf as <-. split; reflexivity.
Defined.

(** X5: Every session handed to [storage.Save] has
    [DurationMs = EndedAt - StartedAt] (in int64), a current file, which is
    the last entry of [OpenFiles], and pairwise distinct entries in
    [OpenFiles], all of them live. *)
Theorem saved_session_is_closed env w c :
  reachable env w ->
  c ∈ saves w ->
  let s := saved_session c in
  Session.DurationMs s = Int64.sub (Session.EndedAt s) (Session.StartedAt s) ∧
  NoDup (Session.OpenFiles s) ∧
  (∃ p, Session.CurrentFile s = Some p ∧ last (Session.OpenFiles s) = Some p) ∧
  length (spans (saved_heap c) (Session.OpenFiles s))
    = length (Session.OpenFiles s).
Proof.
  intros Hreach Hc s.
  destruct (reachable_sound env w Hreach) as [[_ (_ & _ & Htl)] _].
  rewrite Forall_forall in Htl.
  destruct (Htl c Hc) as (Hd & Hnd & Hcur & Hlen & _). auto.
Qed.

Lemma saved_session_is_closed_witness :
  reachable reopen_env reopen_world ∧
  reopen_call ∈ saves reopen_world ∧
  Session.DurationMs (saved_session reopen_call) = 2500 ∧
  Session.CurrentFile (saved_session reopen_call) = Some 2%nat ∧
  Session.OpenFiles (saved_session reopen_call) = [0; 1; 2]%nat.
Proof.
  assert (Hreach : reachable reopen_env reopen_world)
    by apply run_reachable, reachable_initial.
  assert (Hin : reopen_call ∈ saves reopen_world) by (vm_compute; left).
  split; [exact Hreach|]. split; [exact Hin|].
  destruct (saved_session_is_closed reopen_env reopen_world reopen_call
              Hreach Hin) as (Hd & _).
  split; [rewrite Hd; reflexivity|]. split; reflexivity.
Defined.

Lemma tiled_last sp stop :
  tiled sp stop -> sp ≠ [] -> ∃ o, last sp = Some (o, stop).
Proof.
  induction sp as [|[o c] rest IH]; simpl; [congruence|].
  intros [Hc Hrest] _. destruct rest as [|oc rest'].
  - exists o. rewrite Hc. reflexivity.
  - destruct (IH Hrest ltac:(discriminate)) as [o' Hl]. exists o'.
    exact Hl.
Qed.

(** X6: The files of a session handed to [storage.Save] tile its time: each
    entry of [OpenFiles] was closed when the next one was opened, the last
    one at [EndedAt]; hence their durations add up to [EndedAt] minus the
    opening time of the first file. *)
Theorem saved_files_tile_the_session env w c :
  reachable env w ->
  c ∈ saves w ->
  let s := saved_session c in
  let sp := spans (saved_heap c) (Session.OpenFiles s) in
  tiled sp (Session.EndedAt s) ∧
  ∃ o cl rest,
    sp = (o, cl) :: rest ∧
    Zsum ((λ oc, oc.2 - oc.1) <$> sp) = Session.EndedAt s - o.
Proof.
  intros Hreach Hc s sp.
  destruct (reachable_sound env w Hreach) as [[_ (_ & _ & Htl)] _].
  rewrite Forall_forall in Htl.
  destruct (Htl c Hc) as (_ & _ & (p & _ & Hlast) & Hlen & _ & Ht).
  fold s in Hlast, Hlen, Ht. fold sp in Hlen, Ht. split; [exact Ht|].
  destruct sp as [|[o cl] rest] eqn:Hsp.
  - destruct (Session.OpenFiles s); [discriminate Hlast | discriminate Hlen].
  - exists o, cl, rest. split; [reflexivity|]. apply (tiled_sum _ _ _ _ Ht).
Qed.

Lemma saved_files_tile_the_session_witness :
  reachable reopen_env reopen_world ∧
  reopen_call ∈ saves reopen_world ∧
  spans (saved_heap reopen_call) (Session.OpenFiles (saved_session reopen_call))
    = [(0, 1000); (1000, 2000); (2000, 2500)] ∧
  Zsum ((λ oc, oc.2 - oc.1)
          <$> spans (saved_heap reopen_call)
                    (Session.OpenFiles (saved_session reopen_call)))
    = 2500.
Proof.
  assert (Hreach : reachable reopen_env reopen_world)
    by apply run_reachable, reachable_initial.
  assert (Hin : reopen_call ∈ saves reopen_world) by (vm_compute; left).
  split; [exact Hreach|]. split; [exact Hin|]. split; [reflexivity|].
  destruct (saved_files_tile_the_session reopen_env reopen_world reopen_call
              Hreach Hin) as (_ & o & cl & rest & Hsp & Hsum).
  rewrite Hsum. vm_compute in Hsp. injection Hsp as <- _ _. reflexivity.
Defined.

(** ** Durations under a monotone clock *)

Lemma intervals_le_spans (h : list File.t) l path :
  Forall (λ oc : Z * Z, oc.1 <= oc.2) (spans h l) ->
  0 <= Zsum (intervals h l path)
    <= Zsum ((λ oc : Z * Z, oc.2 - oc.1) <$> spans h l).
Proof.
  unfold intervals, spans, interval_of.
  induction l as [|p l IH]; csimpl; [lia|].
  destruct (h !! p) as [f|]; csimpl; [|exact IH].
  intros Hall. apply Forall_cons in Hall as [Hf Hall]. simpl in Hf.
  specialize (IH Hall). destruct (decide (File.Path f = path)); csimpl; lia.
Qed.

(** X7: With an injected clock that never goes back and reads between 0 and
    the largest int64, the merged duration of every file of a saved session
    is the exact sum of its intervals, is not negative, and is at most the
    time from the opening of the first file to the end of the session. *)
Theorem monotone_clock_durations env w c path q :
  reachable env w ->
  c ∈ saves w ->
  (∀ i j, (i <= j)%nat -> clock_at env i <= clock_at env j) ->
  (∀ n, 0 <= clock_at env n <= Int64.max_int) ->
  Session.Files (saved_session c) !! path = Some q ->
  let s := saved_session c in
  ∃ f o,
    saved_heap c !! q = Some f ∧
    fst <$> head (spans (saved_heap c) (Session.OpenFiles s)) = Some o ∧
    File.DurationMs f
      = Zsum (intervals (saved_heap c) (Session.OpenFiles s) path) ∧
    0 <= File.DurationMs f <= Session.EndedAt s - o.
Proof.
  intros Hreach Hc Hmono Hbound Hq s. subst s.
  set (s := saved_session c) in *.
  destruct (reachable_sound env w Hreach) as [[[_ Hmg] (_ & _ & Htl)] _].
  rewrite Forall_forall in Hmg, Htl.
  destruct (Hmg c Hc) as [_ Hm]. specialize (Hm path). fold s in Hm.
  rewrite Hq in Hm. destruct Hm as (f & Hf & _ & Hd & _).
  destruct (Htl c Hc) as (_ & _ & (p & _ & Hlast) & Hlen & Hcl & Ht).
  fold s in Hlast, Hlen, Hcl, Ht.
  destruct (spans (saved_heap c) (Session.OpenFiles s)) as [|[o cl] rest] eqn:Hsp.
  { destruct (Session.OpenFiles s); [discriminate Hlast | discriminate Hlen]. }
  pose proof (tiled_sum _ _ _ _ Ht) as Hsum.
  assert (Hord : Forall (λ oc : Z * Z, oc.1 <= oc.2) ((o, cl) :: rest)).
  { eapply Forall_impl; [exact Hcl|]. intros oc (i & j & Hij & ->). simpl.
    apply Hmono. lia. }
  pose proof (intervals_le_spans (saved_heap c) (Session.OpenFiles s) path) as Hle.
  rewrite Hsp in Hle. specialize (Hle Hord). rewrite Hsum in Hle.
  assert (Ho : 0 <= o).
  { apply Forall_cons in Hcl as [(i & j & _ & [= -> _]) _]. apply Hbound. }
  assert (He : Session.EndedAt s <= Int64.max_int).
  { destruct (tiled_last _ _ Ht ltac:(discriminate)) as [o' Hl].
    rewrite Forall_forall in Hcl.
    destruct (Hcl (o', Session.EndedAt s)) as (i & j & _ & [= _ ->]).
    - apply last_Some_elem_of. exact Hl.
    - apply Hbound. }
  exists f, o. split; [exact Hf|]. split; [reflexivity|].
  assert (Hexact : File.DurationMs f
                   = Zsum (intervals (saved_heap c) (Session.OpenFiles s) path)).
  { rewrite Hd. apply Int64_wrap_id. unfold Int64.in_range, Int64.min_int.
    unfold Int64.max_int in *. lia. }
  split; [exact Hexact|]. rewrite Hexact. exact Hle.
Qed.

Lemma monotone_clock_durations_witness :
  reachable ticking_env ticking_world ∧
  ticking_call ∈ saves ticking_world ∧
  (∀ i j, (i <= j)%nat -> clock_at ticking_env i <= clock_at ticking_env j) ∧
  Session.Files (saved_session ticking_call) !! "/repo/a.go"%string = Some 0%nat ∧
  ∃ f, saved_heap ticking_call !! 0%nat = Some f ∧
       File.DurationMs f = 3000 ∧
       Session.EndedAt (saved_session ticking_call) = 6000.
Proof.
  assert (Hreach : reachable ticking_env ticking_world)
    by apply run_reachable, reachable_initial.
  assert (Hin : ticking_call ∈ saves ticking_world) by (vm_compute; left).
  assert (Hmono : ∀ i j, (i <= j)%nat ->
                         clock_at ticking_env i <= clock_at ticking_env j).
  { intros i j Hij. simpl. unfold Int64.max_int. lia. }
  assert (Hbound : ∀ n, 0 <= clock_at ticking_env n <= Int64.max_int).
  { intros n. simpl. unfold Int64.max_int. lia. }
  split; [exact Hreach|]. split; [exact Hin|]. split; [exact Hmono|].
  split; [reflexivity|].
  destruct (monotone_clock_durations ticking_env ticking_world ticking_call
              "/repo/a.go" 0%nat Hreach Hin Hmono Hbound eq_refl)
    as (f & o & Hf & _ & Hd & _).
  exists f. split; [exact Hf|]. split; [rewrite Hd; reflexivity | reflexivity].
Defined.

(** ** The handlers, case by case *)

(** [updateCurrentFile] on a session just made by [createSession]. *)
Lemma updateCurrentFile_fresh env path w startedAt os editor :
  session (engine w) = Some (Session.mk startedAt 0 0 os editor None [] ∅) ->
  ∃ w' s',
    updateCurrentFile env path w = (w', Ret tt) ∧
    session (engine w') = Some s' ∧
    Session.StartedAt s' = startedAt ∧
    Session.OpenFiles s' = [] ∧
    Session.Files s' = ∅ ∧
    (Session.CurrentFile s' = None <-> metadata_of env path = None) ∧
    (∀ md, metadata_of env path = Some md ->
           Session.CurrentFile s' = Some (length (heap w)) ∧
           heap w' = heap w ++ [opened_file md path (clock_at env (clock_reads w))]) ∧
    (metadata_of env path = None -> heap w' = heap w) ∧
    mutex (engine w') = mutex (engine w) ∧
    activeClientId (engine w') = activeClientId (engine w) ∧
    lastHeartbeat (engine w') = lastHeartbeat (engine w) ∧
    clock_reads w' = S (clock_reads w) ∧
    wall_reads w' = wall_reads w ∧
    saves w' = saves w.
Proof.
  intros Hs. destruct (metadata_of env path) as [md|] eqn:Hmd.
  - destruct (updateCurrentFile_resolved env path w _ md Hs
                (session_wf_fresh _ _ _ _) Hmd)
      as (w' & Hrun & Hs' & Hh & Hrest).
    eexists w', _. split; [exact Hrun|]. split; [exact Hs'|]. simpl.
    split; [reflexivity|]. split; [reflexivity|]. split; [reflexivity|].
    split; [split; discriminate|].
    split; [intros md' [= <-]; split; [reflexivity | exact Hh]|].
    split; [discriminate | exact Hrest].
  - rewrite (updateCurrentFile_unresolved env path w Hmd).
    eexists _, _. split; [reflexivity|]. simpl. split; [exact Hs|]. simpl.
    split; [reflexivity|]. split; [reflexivity|]. split; [reflexivity|].
    split; [tauto|]. split; [discriminate|]. auto 10.
Qed.

(** X8: OpenFile while a session is in flight, for a path the reader resolves:
    the current file is archived with [ClosedAt] equal to the [OpenedAt] of
    the new current file (the second reading of the clock), the new file is
    a fresh pointer, and the event joins the session in flight: the active
    client is unchanged, whichever client sent the event. *)
Theorem OpenFile_switches_current_file env event w s md :
  reachable env w ->
  session (engine w) = Some s ->
  metadata_of env (EventPath event) = Some md ->
  let openedAt := clock_at env (S (clock_reads w)) in
  ∃ w',
    OpenFile env event w
      = (w', Ret (Some "Successfully updated the current file."%string, None)) ∧
    activeClientId (engine w') = activeClientId (engine w) ∧
    lastHeartbeat (engine w') = clock_at env (clock_reads w) ∧
    session (engine w') =
      Some (Session.with_CurrentFile (Some (length (heap w)))
              (Session.with_OpenFiles (archived s) s)) ∧
    heap w' =
      close_current openedAt (Session.CurrentFile s) (heap w)
      ++ [opened_file md (EventPath event) openedAt] ∧
    saves w' = saves w.
Proof.
  intros Hreach Hs Hmd openedAt.
  destruct (reachable_consistent env w Hreach) as [[Hwf _] Hm].
  unfold wf_world in Hwf. rewrite Hs in Hwf.
  unfold OpenFile. mrun.
  match goal with
  | |- context [updateCurrentFile env ?p ?W] =>
      destruct (updateCurrentFile_resolved env p W s md eq_refl Hwf Hmd)
        as (w1 & Hrun & Hs1 & Hh1 & Hmx & Hid & Hlh & _ & _ & Hsv);
        rewrite Hrun
  end.
  simpl in *. mrun. eexists. split; [reflexivity|]. simpl.
  rewrite Hid, Hlh, Hs1, Hh1, Hsv. auto 10.
Qed.

Lemma OpenFile_switches_current_file_witness :
  reachable reopen_env one_file_world ∧
  session (engine one_file_world) = Some one_file_session ∧
  metadata_of reopen_env (EventPath (example_event "B2" "/repo/b.go"))
    = Some (mkFileMetadata "/repo/b.go" "repo" "go") ∧
  ∃ w',
    OpenFile reopen_env (example_event "B2" "/repo/b.go") one_file_world
      = (w', Ret (Some "Successfully updated the current file."%string, None)) ∧
    activeClientId (engine w') = "A1"%string ∧
    (File.ClosedAt <$> heap w') = [1000; 0] ∧
    (File.OpenedAt <$> heap w') = [0; 1000].
Proof.
  assert (Hreach : reachable reopen_env one_file_world)
    by apply run_reachable, reachable_initial.
  split; [exact Hreach|]. split; [reflexivity|]. split; [reflexivity|].
  destruct (OpenFile_switches_current_file reopen_env
              (example_event "B2" "/repo/b.go") one_file_world one_file_session
              (mkFileMetadata "/repo/b.go" "repo" "go") Hreach eq_refl eq_refl)
    as (w' & Hrun & Ha & _ & _ & Hh & _).
  exists w'. split; [exact Hrun|]. split; [rewrite Ha; reflexivity|].
  rewrite Hh. split; reflexivity.
Defined.

(** X9: OpenFile while a session is in flight, for a path the reader cannot
    resolve: the heartbeat is recorded and nothing else changes; the current
    file stays open and the call still answers with success. *)
Theorem OpenFile_unresolved_path env event w s :
  reachable env w ->
  session (engine w) = Some s ->
  metadata_of env (EventPath event) = None ->
  ∃ w',
    OpenFile env event w
      = (w', Ret (Some "Successfully updated the current file."%string, None)) ∧
    engine w' = mkApp false (activeClientId (engine w))
                      (clock_at env (clock_reads w)) (Some s) ∧
    heap w' = heap w ∧
    saves w' = saves w.
Proof.
  intros Hreach Hs Hmd.
  destruct (reachable_consistent env w Hreach) as [_ Hm].
  unfold OpenFile. mrun.
  rewrite (updateCurrentFile_unresolved env _ _ Hmd). msimpl.
  eexists. split; [reflexivity|]. simpl. auto.
Qed.

Lemma OpenFile_unresolved_path_witness :
  reachable (repo_env [0; 0; 1000; 1000; 2000; 2000] 0) repo_world ∧
  session (engine repo_world) = Some one_file_session ∧
  metadata_of (repo_env [0; 0; 1000; 1000; 2000; 2000] 0)
              (EventPath (example_event "A1" "/tmp/notes.txt")) = None ∧
  ∃ w',
    OpenFile (repo_env [0; 0; 1000; 1000; 2000; 2000] 0)
             (example_event "A1" "/tmp/notes.txt") repo_world
      = (w', Ret (Some "Successfully updated the current file."%string, None)) ∧
    session (engine w') = Some one_file_session ∧
    lastHeartbeat (engine w') = 1000 ∧
    heap w' = heap repo_world.
Proof.
  assert (Hreach : reachable (repo_env [0; 0; 1000; 1000; 2000; 2000] 0) repo_world)
    by apply run_reachable, reachable_initial.
  split; [exact Hreach|]. split; [reflexivity|]. split; [reflexivity|].
  destruct (OpenFile_unresolved_path (repo_env [0; 0; 1000; 1000; 2000; 2000] 0)
              (example_event "A1" "/tmp/notes.txt") repo_world one_file_session
              Hreach eq_refl eq_refl) as (w' & Hrun & He & Hh & _).
  exists w'. split; [exact Hrun|]. rewrite He. auto.
Defined.

(** X10: SendHeartbeat while a session is in flight only records the reading of
    the clock as the last heartbeat; the path and the client of the event
    are not looked at. *)
Theorem SendHeartbeat_in_flight env event w s :
  reachable env w ->
  session (engine w) = Some s ->
  ∃ w',
    SendHeartbeat env event w
      = (w', Ret (Some "Successfully sent heartbeat"%string, None)) ∧
    engine w' = mkApp false (activeClientId (engine w))
                      (clock_at env (clock_reads w)) (Some s) ∧
    heap w' = heap w ∧
    saves w' = saves w ∧
    clock_reads w' = S (clock_reads w).
Proof.
  intros Hreach Hs.
  destruct (reachable_consistent env w Hreach) as [_ Hm].
  unfold SendHeartbeat. mrun.
  eexists. split; [reflexivity|]. simpl. auto.
Qed.

Lemma SendHeartbeat_in_flight_witness :
  reachable boundary_env boundary_world ∧
  session (engine boundary_world) = Some one_file_session ∧
  ∃ w',
    SendHeartbeat boundary_env (example_event "B2" "/repo/b.go") boundary_world
      = (w', Ret (Some "Successfully sent heartbeat"%string, None)) ∧
    engine w' = mkApp false "A1" 600000 (Some one_file_session) ∧
    heap w' = heap boundary_world.
Proof.
  assert (Hreach : reachable boundary_env boundary_world)
    by apply run_reachable, reachable_initial.
  split; [exact Hreach|]. split; [reflexivity|].
  destruct (SendHeartbeat_in_flight boundary_env (example_event "B2" "/repo/b.go")
              boundary_world one_file_session Hreach eq_refl)
    as (w' & Hrun & He & Hh & _).
  exists w'. auto.
Defined.

(** X11: SendHeartbeat on an idle engine starts a session for the client of the
    event: [StartedAt] is the reading of the wall clock, the current file is
    the path of the event when the reader resolves it (opened at the first
    reading of the clock), and the heartbeat is the second reading. *)
Theorem SendHeartbeat_revives_idle_engine env event w :
  reachable env w ->
  session (engine w) = None ->
  ∃ w' s',
    SendHeartbeat env event w
      = (w', Ret (Some "Successfully sent heartbeat"%string, None)) ∧
    activeClientId (engine w') = Id event ∧
    lastHeartbeat (engine w') = clock_at env (S (clock_reads w)) ∧
    session (engine w') = Some s' ∧
    Session.StartedAt s' = wall_at env (wall_reads w) ∧
    Session.OpenFiles s' = [] ∧
    (Session.CurrentFile s' = None <-> metadata_of env (EventPath event) = None) ∧
    (∀ md, metadata_of env (EventPath event) = Some md ->
           Session.CurrentFile s' = Some (length (heap w)) ∧
           heap w' = heap w ++ [opened_file md (EventPath event)
                                  (clock_at env (clock_reads w))]) ∧
    saves w' = saves w.
Proof.
  intros Hreach Hs.
  destruct (reachable_consistent env w Hreach) as [_ Hm].
  unfold SendHeartbeat, createSession. mrun.
  match goal with
  | |- context [updateCurrentFile env ?p ?W] =>
      destruct (updateCurrentFile_fresh env p W _ _ _ eq_refl)
        as (w1 & s1 & Hrun & Hs1 & Hst & Hof & _ & Hnone & Hsome & _
            & Hmx & Hid & Hlh & Hcr & Hwr & Hsv);
        rewrite Hrun
  end.
  simpl in *. mrun. eexists _, s1. split; [reflexivity|]. simpl.
  rewrite Hid, Hcr, Hsv. auto 10.
Qed.

Lemma SendHeartbeat_revives_idle_engine_witness :
  reachable idle_again_env idle_again_world ∧
  session (engine idle_again_world) = None ∧
  ∃ w' s',
    SendHeartbeat idle_again_env (example_event "A1" "/repo/a.go") idle_again_world
      = (w', Ret (Some "Successfully sent heartbeat"%string, None)) ∧
    activeClientId (engine w') = "A1"%string ∧
    session (engine w') = Some s' ∧
    Session.CurrentFile s' = Some 1%nat.
Proof.
  assert (Hreach : reachable idle_again_env idle_again_world)
    by apply run_reachable, reachable_initial.
  split; [exact Hreach|]. split; [reflexivity|].
  destruct (SendHeartbeat_revives_idle_engine idle_again_env
              (example_event "A1" "/repo/a.go") idle_again_world Hreach eq_refl)
    as (w' & s' & Hrun & Ha & _ & Hs' & _ & _ & _ & Hsome & _).
  exists w', s'. split; [exact Hrun|]. split; [exact Ha|]. split; [exact Hs'|].
  destruct (Hsome _ eq_refl) as [Hc _]. exact Hc.
Defined.

(** X12: FocusGained of a client that is not the active one: the session in
    flight, if any, is closed at the second reading of the clock and handed
    to [storage.Save] when it has a file; then the event's client becomes
    the active client of a new session, started at the wall clock, with no
    archived file and with the event's path as current file when the reader
    resolves it. *)
Theorem FocusGained_other_client env event w :
  reachable env w ->
  activeClientId (engine w) ≠ Id event ->
  ∃ w' s',
    FocusGained env event w
      = (w', Ret (Some "Successfully updated the client being focused."%string,
                  None)) ∧
    activeClientId (engine w') = Id event ∧
    lastHeartbeat (engine w') = clock_at env (clock_reads w) ∧
    session (engine w') = Some s' ∧
    Session.StartedAt s' = wall_at env (wall_reads w) ∧
    Session.OpenFiles s' = [] ∧
    Session.Files s' = ∅ ∧
    (Session.CurrentFile s' = None <-> metadata_of env (EventPath event) = None) ∧
    (∀ s, session (engine w) = Some s -> archived s ≠ [] ->
          ∃ c, saves w' = saves w ++ [c] ∧
               Session.StartedAt (saved_session c) = Session.StartedAt s ∧
               Session.EndedAt (saved_session c) = clock_at env (S (clock_reads w)) ∧
               Session.OpenFiles (saved_session c) = archived s) ∧
    (session (engine w) = None ∨
     (∃ s, session (engine w) = Some s ∧ archived s = []) ->
     saves w' = saves w).
Proof.
  intros Hreach Hne.
  destruct (reachable_consistent env w Hreach) as [[Hwf _] Hm].
  apply String.eqb_neq in Hne.
  unfold FocusGained, createSession. mrun. unfold wf_world in Hwf.
  destruct (session (engine w)) as [s|] eqn:Hs; mrun.
  - match goal with
    | |- context [saveSession env ?W] =>
        destruct (saveSession_spec env W s eq_refl Hwf)
          as (w1 & F' & Hrun1 & He1 & _ & _ & _ & Hwr1 & Hsv1); rewrite Hrun1
    end.
    simpl in He1, Hwr1, Hsv1. mrun. rewrite He1. simpl.
    match goal with
    | |- context [updateCurrentFile env ?p ?W] =>
        destruct (updateCurrentFile_fresh env p W _ _ _ eq_refl)
          as (w2 & s2 & Hrun2 & Hs2 & Hst & Hof & Hfl & Hnone & _ & _
              & Hmx & Hid & Hlh & _ & _ & Hsv2);
          rewrite Hrun2
    end.
    simpl in *. mrun. eexists _, s2. split; [reflexivity|]. simpl.
    rewrite Hid, Hlh, Hsv2, Hsv1, Hwr1 in *.
    split; [reflexivity|]. split; [reflexivity|]. split; [exact Hs2|].
    split; [exact Hst|]. split; [exact Hof|]. split; [exact Hfl|].
    split; [exact Hnone|]. split.
    + intros s0 [= <-] Harch.
      destruct (decide (archived s = [])) as [He0|_]; [contradiction|].
      eexists. split; [reflexivity|]. simpl. auto.
    + intros [Hnil | (s0 & [= <-] & Harch)]; [discriminate|].
      destruct (decide (archived s = [])) as [_|Hc]; [reflexivity | contradiction].
  - match goal with
    | |- context [updateCurrentFile env ?p ?W] =>
        destruct (updateCurrentFile_fresh env p W _ _ _ eq_refl)
          as (w2 & s2 & Hrun2 & Hs2 & Hst & Hof & Hfl & Hnone & _ & _
              & Hmx & Hid & Hlh & _ & _ & Hsv2);
          rewrite Hrun2
    end.
    simpl in *. mrun. eexists _, s2. split; [reflexivity|]. simpl.
    rewrite Hid, Hlh, Hsv2.
    split; [reflexivity|]. split; [reflexivity|]. split; [exact Hs2|].
    split; [exact Hst|]. split; [exact Hof|]. split; [exact Hfl|].
    split; [exact Hnone|]. split; [discriminate | reflexivity].
Qed.

Lemma FocusGained_other_client_witness :
  reachable reopen_env one_file_world ∧
  activeClientId (engine one_file_world) ≠ Id (example_event "B2" "/repo/b.go") ∧
  ∃ w' s' c,
    FocusGained reopen_env (example_event "B2" "/repo/b.go") one_file_world
      = (w', Ret (Some "Successfully updated the client being focused."%string,
                  None)) ∧
    activeClientId (engine w') = "B2"%string ∧
    session (engine w') = Some s' ∧
    Session.OpenFiles s' = [] ∧
    saves w' = [c] ∧
    Session.EndedAt (saved_session c) = 1000 ∧
    Session.OpenFiles (saved_session c) = [0%nat].
Proof.
  assert (Hreach : reachable reopen_env one_file_world)
    by apply run_reachable, reachable_initial.
  assert (Hne : activeClientId (engine one_file_world)
                ≠ Id (example_event "B2" "/repo/b.go")) by discriminate.
  split; [exact Hreach|]. split; [exact Hne|].
  destruct (FocusGained_other_client reopen_env (example_event "B2" "/repo/b.go")
              one_file_world Hreach Hne)
    as (w' & s' & Hrun & Ha & _ & Hs' & _ & Hof & _ & _ & Hsaved & _).
  destruct (Hsaved one_file_session eq_refl ltac:(discriminate))
    as (c & Hsv & _ & Hen & Hopen).
  exists w', s', c. split; [exact Hrun|]. split; [exact Ha|].
  split; [exact Hs'|]. split; [exact Hof|]. split; [exact Hsv|].
  split; [exact Hen | exact Hopen].
Defined.

(** X13: In every run of the engine a request returns, and the only other
    outcome is the process exit of an EndSession event: no handler
    dereferences a nil session or a dangling file pointer, and none finds
    the mutex held. *)
Theorem engine_never_panics env r w :
  reachable env w ->
  snd (serve env r w) = Ret tt ∨
  (snd (serve env r w) = Fatal ∧ ∃ event, r = ReqEndSession event).
Proof.
  intros Hreach. destruct (reachable_consistent env w Hreach) as [Hc Hm].
  destruct r as [event|event|event|event|]; simpl.
  - destruct (FocusGained_consistent env event w Hm Hc) as (w1 & a & Heq & _).
    left. rewrite (bind_Ret _ _ _ _ _ Heq). reflexivity.
  - destruct (OpenFile_consistent env event w Hm Hc) as (w1 & a & Heq & _).
    left. rewrite (bind_Ret _ _ _ _ _ Heq). reflexivity.
  - destruct (SendHeartbeat_consistent env event w Hm Hc) as (w1 & a & Heq & _).
    left. rewrite (bind_Ret _ _ _ _ _ Heq). reflexivity.
  - destruct (EndSession_consistent env event w Hm Hc)
      as (w1 & a & Heq & [-> | (b & -> & _)]).
    + right. unfold mbind, M_bind, bind. rewrite Heq. eauto.
    + left. rewrite (bind_Ret _ _ _ _ _ Heq). reflexivity.
  - destruct (CheckHeartbeat_consistent env w Hm Hc) as (w1 & Heq & _).
    left. rewrite Heq. reflexivity.
Qed.

Lemma engine_never_panics_witness :
  reachable reopen_env two_files_world ∧
  snd (serve reopen_env (ReqFocusGained (example_event "B2" "/repo/c.go"))
         two_files_world) = Ret tt.
Proof.
  assert (Hreach : reachable reopen_env two_files_world)
    by apply run_reachable, reachable_initial.
  split; [exact Hreach|].
  destruct (engine_never_panics reopen_env
              (ReqFocusGained (example_event "B2" "/repo/c.go"))
              two_files_world Hreach) as [H | [_ [event H]]];
    [exact H | discriminate H].
Defined.

(** X1, [EndSession_fatal_iff], on the engine of one client with one open
    file: an EndSession event of another client exits the process, one of
    that client does not. *)
Lemma EndSession_fatal_iff_witness :
  mutex (engine one_file_world) = false ∧
  consistent one_file_world ∧
  snd (EndSession reopen_env (example_event "B2" EmptyString) one_file_world) = Fatal ∧
  snd (EndSession reopen_env (example_event "A1" EmptyString) one_file_world) ≠ Fatal.
Proof.
  assert (Hc : consistent one_file_world).
  { apply (reachable_consistent reopen_env), run_reachable, reachable_initial. }
  split; [reflexivity|]. split; [exact Hc|]. split.
  - apply (EndSession_fatal_iff reopen_env (example_event "B2" EmptyString)
             one_file_world eq_refl Hc).
    split; [vm_compute; lia | discriminate].
  - intros H.
    apply (EndSession_fatal_iff reopen_env (example_event "A1" EmptyString)
             one_file_world eq_refl Hc) in H as [_ H].
    apply H. reflexivity.
Defined.

(** X2, [rpc_handlers_hold_the_mutex], on the same engine: none of the
    four procedures touches it outside the mutex. *)
Lemma rpc_handlers_hold_the_mutex_witness :
  mutex (engine one_file_world) = false ∧
  unguarded (fst (OpenFile reopen_env (example_event "A1" "/repo/b.go")
                    one_file_world)) = false ∧
  unguarded (fst (EndSession reopen_env (example_event "A1" EmptyString)
                    one_file_world)) = false.
Proof.
  split; [reflexivity|].
  destruct (rpc_handlers_hold_the_mutex reopen_env (example_event "A1" "/repo/b.go")
              one_file_world eq_refl) as (_ & Ho & _ & _).
  destruct (rpc_handlers_hold_the_mutex reopen_env (example_event "A1" EmptyString)
              one_file_world eq_refl) as (_ & _ & _ & He).
  split; [rewrite Ho | rewrite He]; reflexivity.
Defined.

(** * Construction of the app *)

Section OptionsProperties.

Context {Clock MetadataReader Storage Logger : Type}.
Implicit Types (l : list (@setting Clock MetadataReader Storage Logger)).

Lemma last_cons_default {A} (x : A) (k : list A) :
  last (x :: k) = Some (default x (last k)).
Proof.
  revert x. induction k as [|y k IH]; intros x; [reflexivity|].
  change (last (x :: y :: k)) with (last (y :: k)). rewrite IH.
  simpl. destruct k; reflexivity.
Qed.

Lemma apply_options_fields l : ∀ a,
  omap nil_error l = [] ->
  ∃ a',
    apply_options a (option_of <$> l) = (a', None) ∧
    field_clock a' = from_option Some (field_clock a) (last (omap given_clock l)) ∧
    field_reader a' = from_option Some (field_reader a) (last (omap given_reader l)) ∧
    field_storage a' = from_option Some (field_storage a) (last (omap given_storage l)) ∧
    field_log a' = from_option Some (field_log a) (last (omap given_log l)).
Proof.
  induction l as [|x l IH]; intros a Hnil.
  - exists a. simpl. auto.
  - destruct x as [[c|]|[r|]|[s|]|[g|]]; csimpl in Hnil; try discriminate;
      csimpl;
      match goal with
      | |- context [apply_options ?a1 (option_of <$> l)] =>
          destruct (IH a1 Hnil) as (a' & Hrun & Hc & Hr & Hs & Hg)
      end;
      exists a'; (split; [exact Hrun|]);
      rewrite Hc, Hr, Hs, Hg; simpl;
      rewrite ?last_cons_default;
      repeat split;
      try reflexivity;
      match goal with
      | |- context [last ?k] => destruct (last k); reflexivity
      end.
Qed.

End OptionsProperties.

(** X14: [New] fails exactly when one of its options was built on a nil
    collaborator: it then returns the error of the first such option and an
    empty app, without the defaults and without what earlier options had
    set; otherwise it returns no error. *)
Theorem New_fails_on_first_nil {Clock MetadataReader Storage Logger : Type}
    (clock_New : Clock) (FileMetadataReader : MetadataReader)
    (l : list (@setting Clock MetadataReader Storage Logger)) :
  match omap nil_error l with
  | err :: _ =>
      New clock_New FileMetadataReader (option_of <$> l)
        = (mkFields None None None None, Some err)
  | [] => snd (New clock_New FileMetadataReader (option_of <$> l)) = None
  end.
Proof.
  unfold New.
  generalize (mkFields (Some clock_New) (Some FileMetadataReader)
                (None : option Storage) (None : option Logger)).
  induction l as [|x l IH]; intros a; csimpl; [reflexivity|].
  destruct x as [[c|]|[r|]|[s|]|[g|]]; simpl; try reflexivity; apply IH.
Qed.

(** X15: When no option is built on a nil collaborator, [New] returns the app in
    which each collaborator is the one of the last option that sets it; a
    clock and a reader that no option sets are the defaults, whereas the
    storage and the logger are then nil. *)
Theorem New_last_option_wins {Clock MetadataReader Storage Logger : Type}
    (clock_New : Clock) (FileMetadataReader : MetadataReader)
    (l : list (@setting Clock MetadataReader Storage Logger)) :
  omap nil_error l = [] ->
  ∃ a,
    New clock_New FileMetadataReader (option_of <$> l) = (a, None) ∧
    field_clock a = Some (default clock_New (last (omap given_clock l))) ∧
    field_reader a
      = Some (default FileMetadataReader (last (omap given_reader l))) ∧
    field_storage a = last (omap given_storage l) ∧
    field_log a = last (omap given_log l).
Proof.
  intros Hnil. unfold New.
  destruct (apply_options_fields l
              (mkFields (Some clock_New) (Some FileMetadataReader) None None)
              Hnil) as (a & Hrun & Hc & Hr & Hs & Hg).
  exists a. split; [exact Hrun|]. simpl in *. rewrite Hc, Hr, Hs, Hg.
  repeat split; match goal with
                | |- context [last ?k] => destruct (last k); reflexivity
                end.
Qed.

Lemma New_last_option_wins_witness :
  omap nil_error example_settings = [] ∧
  New 0%nat 0%nat (option_of <$> example_settings)
    = (mkFields (Some 2%nat) (Some 0%nat) (Some 7%nat) None, None).
Proof.
  split; [reflexivity|].
  destruct (New_last_option_wins 0%nat 0%nat example_settings eq_refl)
    as (a & Hrun & _).
  rewrite Hrun. vm_compute in Hrun. injection Hrun as <-. reflexivity.
Defined.

(** * Construction of the server *)

Lemma server_apply_options {Clock FileReader TemporaryStorage Log : Type}
    (l : list (@server.setting Clock FileReader TemporaryStorage Log)) : ∀ a,
  if forallb (λ x, negb (server.is_nil x)) l
  then ∃ a', server.apply_options a (server.option_of <$> l) = (a', None) ∧
             server.serverName a' = server.serverName a ∧
             (∀ x, x ∈ l -> server.is_nil x = false) ∧
             (is_Some (server.clock a) -> is_Some (server.clock a')) ∧
             (is_Some (server.fileReader a) -> is_Some (server.fileReader a'))
  else ∃ err, server.apply_options a (server.option_of <$> l)
              = (server.mk EmptyString None None None None, Some err).
Proof.
  induction l as [|x l IH]; intros a; csimpl.
  - exists a. repeat split; auto. intros x Hx. apply not_elem_of_nil in Hx.
    contradiction.
  - destruct x as [[c|]|[r|]|[s|]|[g|]]; simpl; eauto;
      match goal with
      | |- context [server.apply_options ?a1 (server.option_of <$> l)] =>
          specialize (IH a1)
      end;
      destruct (forallb _ l); try exact IH;
      destruct IH as (a' & Hrun & Hn & Hall & Hc & Hr);
      exists a'; (split; [exact Hrun|]); simpl in *;
      (split; [exact Hn|]);
      (split; [intros x Hx; apply elem_of_cons in Hx as [->|Hx];
               [reflexivity | auto]|]);
      split; eauto.
Qed.

(** X16: [server.New] returns an error exactly when one of its options was built
    on a nil collaborator, and then the server it returns is empty, name
    included; otherwise the server keeps the name it was given and has a
    clock and a file reader. *)
Theorem server_New_keeps_name_or_fails
    {Clock FileReader TemporaryStorage Log : Type}
    (clock_New : Clock) (filereader_New : FileReader) (name : string)
    (l : list (@server.setting Clock FileReader TemporaryStorage Log)) :
  if forallb (λ x, negb (server.is_nil x)) l
  then ∃ a, server.New clock_New filereader_New name (server.option_of <$> l)
            = (a, None) ∧
            server.serverName a = name ∧
            is_Some (server.clock a) ∧ is_Some (server.fileReader a)
  else ∃ err, server.New clock_New filereader_New name (server.option_of <$> l)
              = (server.mk EmptyString None None None None, Some err).
Proof.
  unfold server.New.
  pose proof (server_apply_options l
                (server.mk name (Some clock_New) (Some filereader_New) None None))
    as H.
  destruct (forallb _ l); [|exact H].
  destruct H as (a & Hrun & Hn & _ & Hc & Hr). exists a.
  split; [exact Hrun|]. split; [exact Hn|]. simpl in *. split; eauto.
Qed.

(** * Further properties of the day aggregation *)

Lemma Zsum_permutation l1 l2 : l1 ≡ₚ l2 -> Zsum l1 = Zsum l2.
Proof.
  induction 1 as [|x l1 l2 _ IH|x y l|l1 l2 l3 _ IH1 _ IH2]; simpl; lia.
Qed.

Lemma Zsum_bind {A} (f : A -> list Z) (l : list A) :
  Zsum (l ≫= f) = Zsum ((λ x, Zsum (f x)) <$> l).
Proof.
  induction l as [|x l IH]; csimpl; [reflexivity|].
  rewrite Zsum_app, IH. reflexivity.
Qed.

Lemma Int64_wrap_Zsum_wrap {A} (f : A -> Z) (l : list A) :
  Int64.wrap (Zsum ((λ x, Int64.wrap (f x)) <$> l)) = Int64.wrap (Zsum (f <$> l)).
Proof.
  induction l as [|x l IH]; csimpl; [reflexivity|].
  rewrite Int64_wrap_add_l.
  rewrite <- (Int64_wrap_add_r (f x) (Zsum _)), IH.
  apply Int64_wrap_add_r.
Qed.

(** The buckets of [groupByDay] are a partition of the sessions. *)
Lemma groupByDay_partition sessions :
  map_to_list (groupByDay sessions) ≫= snd ≡ₚ sessions.
Proof.
  unfold groupByDay. induction sessions as [|s l IH] using rev_ind.
  - simpl. rewrite map_to_list_empty. reflexivity.
  - rewrite foldl_snoc. cbv zeta.
    set (m := foldl _ ∅ l) in *.
    set (d := truncate_Day (domain.Session.StartedAt s)).
    destruct (m !! d) as [b|] eqn:Hd; simpl.
    + rewrite <- insert_delete_eq.
      rewrite map_to_list_insert by apply lookup_delete_eq.
      rewrite <- (map_to_list_delete m d b Hd) in IH. csimpl in *.
      rewrite <- IH, <- !app_assoc.
      apply Permutation_app_head, Permutation_app_comm.
    + rewrite map_to_list_insert by exact Hd. csimpl.
      rewrite IH. apply Permutation_cons_append.
Qed.

Lemma Aggregate_in_totals format_date entries :
  domain.AggregatedSession.TotalTimeMs <$> Aggregate_in format_date entries
  = (λ e, Int64.wrap (Zsum (domain.Session.DurationMs <$> e.2))) <$> entries.
Proof.
  unfold Aggregate_in. rewrite <- list_fmap_compose.
  apply list_fmap_ext. intros i [d b] _. simpl.
  change 0 with (Int64.wrap 0) at 1. rewrite total_time_sum. reflexivity.
Qed.

Lemma nonneg_le_Zsum (l : list Z) :
  Forall (λ x, 0 <= x) l -> 0 <= Zsum l ∧ Forall (λ x, x <= Zsum l) l.
Proof.
  induction 1 as [|x l Hx _ [IH0 IH]]; simpl; [split; [lia | constructor]|].
  split; [lia|]. constructor; [lia|].
  eapply Forall_impl; [exact IH|]. simpl. intros y Hy. lia.
Qed.

(** X17: No time is lost or counted twice: the [TotalTimeMs] of the entries of
    an output of [Aggregate] add up, in int64, to the [DurationMs] of the
    sessions; and they add up to exactly that sum when no duration is
    negative and the sum fits in an int64. *)
Theorem Aggregate_conserves_total_time format_date sessions out :
  Aggregate_result format_date sessions out ->
  Int64.wrap (Zsum (domain.AggregatedSession.TotalTimeMs <$> out))
    = Int64.wrap (Zsum (domain.Session.DurationMs <$> sessions)) ∧
  (Forall (λ s, 0 <= domain.Session.DurationMs s) sessions ->
   Int64.in_range (Zsum (domain.Session.DurationMs <$> sessions)) ->
   Zsum (domain.AggregatedSession.TotalTimeMs <$> out)
     = Zsum (domain.Session.DurationMs <$> sessions)).
Proof.
  intros (entries & Hp & ->). rewrite Aggregate_in_totals.
  assert (Hsum : Zsum ((λ e : Z * list domain.Session.t,
                          Zsum (domain.Session.DurationMs <$> e.2)) <$> entries)
                 = Zsum (domain.Session.DurationMs <$> sessions)).
  { rewrite <- (Zsum_bind (λ e : Z * list domain.Session.t,
                             domain.Session.DurationMs <$> e.2)).
    apply Zsum_permutation.
    rewrite <- (groupByDay_partition sessions), <- Hp.
    clear. induction entries as [|[d b] entries IH]; csimpl; [reflexivity|].
    rewrite fmap_app, IH. reflexivity. }
  split.
  - rewrite (Int64_wrap_Zsum_wrap
               (λ e : Z * list domain.Session.t,
                  Zsum (domain.Session.DurationMs <$> e.2))), Hsum.
    reflexivity.
  - intros Hpos Hrange. rewrite <- Hsum.
    apply (f_equal Zsum), list_fmap_ext. intros i [d b] Hi. simpl.
    apply Int64_wrap_id.
    assert (Hnn : Forall (λ x, 0 <= x)
                    ((λ e : Z * list domain.Session.t,
                        Zsum (domain.Session.DurationMs <$> e.2)) <$> entries)).
    { apply Forall_fmap, Forall_forall. intros [d' b'] Hin. simpl.
      rewrite Hp in Hin. apply elem_of_groupByDay in Hin as [-> _].
      apply nonneg_le_Zsum, Forall_fmap, Forall_forall.
      intros s Hs. apply list_elem_of_filter in Hs as [_ Hs].
      rewrite Forall_forall in Hpos. apply Hpos, Hs. }
    destruct (nonneg_le_Zsum _ Hnn) as [_ Hle].
    rewrite Forall_forall in Hle, Hnn.
    assert (Hin : Zsum (domain.Session.DurationMs <$> b)
                  ∈ (λ e : Z * list domain.Session.t,
                       Zsum (domain.Session.DurationMs <$> e.2)) <$> entries).
    { apply list_elem_of_fmap. exists (d, b). split; [reflexivity|].
      apply list_elem_of_lookup. eauto. }
    specialize (Hle _ Hin). specialize (Hnn _ Hin). rewrite Hsum in Hle.
    unfold Int64.in_range, Int64.min_int in *. lia.
Qed.

Lemma Aggregate_conserves_total_time_witness :
  Aggregate_result example_format example_sessions
    (Aggregate example_format example_sessions) ∧
  Forall (λ s, 0 <= domain.Session.DurationMs s) example_sessions ∧
  Int64.in_range (Zsum (domain.Session.DurationMs <$> example_sessions)) ∧
  Zsum (domain.AggregatedSession.TotalTimeMs
          <$> Aggregate example_format example_sessions) = 60.
Proof.
  assert (Hres : Aggregate_result example_format example_sessions
                   (Aggregate example_format example_sessions))
    by (eexists; split; reflexivity).
  assert (Hpos : Forall (λ s, 0 <= domain.Session.DurationMs s) example_sessions).
  { repeat constructor; simpl; lia. }
  assert (Hr : Int64.in_range (Zsum (domain.Session.DurationMs <$> example_sessions))).
  { vm_compute. split; discriminate. }
  split; [exact Hres|]. split; [exact Hpos|]. split; [exact Hr|].
  destruct (Aggregate_conserves_total_time example_format example_sessions _ Hres)
    as [_ Hexact].
  rewrite (Hexact Hpos Hr). reflexivity.
Defined.

(** X18: [Aggregate] never returns more entries than it was given sessions, and
    it returns none exactly when it was given none. *)
Theorem Aggregate_size format_date sessions out :
  Aggregate_result format_date sessions out ->
  (length out <= length sessions)%nat ∧ (out = [] <-> sessions = []).
Proof.
  intros (entries & Hp & ->).
  assert (Hlen : length (Aggregate_in format_date entries) = length entries)
    by (unfold Aggregate_in; apply length_fmap).
  assert (Hne : Forall (λ e : Z * list domain.Session.t, e.2 ≠ []) entries).
  { apply Forall_forall. intros [d b] Hin. rewrite Hp in Hin.
    apply elem_of_groupByDay in Hin as [_ Hb]. exact Hb. }
  assert (Hpart : entries ≫= snd ≡ₚ sessions).
  { rewrite Hp. apply groupByDay_partition. }
  assert (Hle : (length entries <= length (entries ≫= snd))%nat).
  { clear -Hne. induction Hne as [|[d b] entries Hb _ IH]; csimpl; [lia|].
    rewrite length_app. simpl in Hb. destruct b; [congruence | simpl; lia]. }
  split.
  - rewrite Hlen, <- (Permutation_length Hpart). exact Hle.
  - split.
    + intros Hnil. apply (f_equal length) in Hnil. rewrite Hlen in Hnil.
      destruct entries; [|discriminate Hnil]. csimpl in Hpart.
      apply Permutation_nil_l in Hpart. symmetry. exact Hpart.
    + intros ->. apply Permutation_nil_r in Hpart.
      destruct entries as [|[d b] entries]; [reflexivity|].
      csimpl in Hpart. apply Forall_cons in Hne as [Hb _]. simpl in Hb.
      destruct b; [congruence | discriminate Hpart].
Qed.

Lemma Aggregate_size_witness :
  Aggregate_result example_format example_sessions
    (Aggregate example_format example_sessions) ∧
  (length (Aggregate example_format example_sessions)
   <= length example_sessions)%nat.
Proof.
  assert (Hres : Aggregate_result example_format example_sessions
                   (Aggregate example_format example_sessions))
    by (eexists; split; reflexivity).
  split; [exact Hres|].
  exact (proj1 (Aggregate_size example_format example_sessions _ Hres)).
Defined.
